(** * email-agent-core: the orchestration core (agent-engine/core)

    A shallow embedding of [Action.ts], [BasePrompt.ts], [TemplatePrompt.ts]
    and [JsonParser.ts] (with [BaseParser.ts]).

    JavaScript strings are sequences of UTF-16 code units; they are modelled
    as [list N], one [N] per code unit.  The builtins the code relies on
    ([String.prototype.trim], the regular expressions it uses, [JSON.parse],
    [String.prototype.replace], the [in] operator, [Object.entries] and
    [Promise.all]) are embedded following the ECMAScript specification for
    the cases the code exercises.  The one exception is the pattern
    [new RegExp(`\\{${key}\\}`, "g")] of [TemplatePrompt._render] for a key
    that holds a regular-expression metacharacter: what the engine does
    with it (including the [SyntaxError] of an invalid source) is a
    parameter of [_render] and [render]. *)

From Stdlib Require Import Ascii String List Bool Arith Lia ZArith NArith Permutation.
Import ListNotations.
Set Warnings "-register-all".

(* ================================================================= *)
(** ** JavaScript strings *)

Definition jstr := list N.

(** A string literal of the source (ASCII) as a list of code units. *)
Definition u (s : string) : jstr := map N_of_ascii (list_ascii_of_string s).

Definition ch (c : ascii) : N := N_of_ascii c.

(** A source literal written with [']  in place of a double quote. *)
Definition q (s : string) : jstr :=
  map (fun c => if N.eqb c 39 then 34%N else c) (u s).

Fixpoint jstr_eqb (a b : jstr) : bool :=
  match a, b with
  | [], [] => true
  | x :: a', y :: b' => N.eqb x y && jstr_eqb a' b'
  | _, _ => false
  end.

(** [s.startsWith(p)] *)
Fixpoint starts_with (p s : jstr) : bool :=
  match p, s with
  | [], _ => true
  | x :: p', y :: s' => N.eqb x y && starts_with p' s'
  | _ :: _, [] => false
  end.

(** [s.includes(c)] for a one-code-unit needle. *)
Definition includes_cu (c : N) (s : jstr) : bool := existsb (N.eqb c) s.

(** [arr.join(sep)] on strings. *)
Fixpoint join (sep : jstr) (xs : list jstr) : jstr :=
  match xs with
  | [] => []
  | [x] => x
  | x :: xs' => x ++ sep ++ join sep xs'
  end.

(** [str.repeat(n)] *)
Fixpoint repeat_str (s : jstr) (n : nat) : jstr :=
  match n with O => [] | S n' => s ++ repeat_str s n' end.

(** Number of occurrences of one code unit, [(s.match(/c/g) || []).length]. *)
Definition count_cu (c : N) (s : jstr) : nat :=
  length (filter (N.eqb c) s).

(** WhiteSpace and LineTerminator code points (ECMA-262 12.2, 12.3): the set
    stripped by [String.prototype.trim] and matched by [\s]. *)
Definition is_js_space (c : N) : bool :=
  N.eqb c 9 || N.eqb c 10 || N.eqb c 11 || N.eqb c 12 || N.eqb c 13
  || N.eqb c 32 || N.eqb c 160 || N.eqb c 5760
  || (N.leb 8192 c && N.leb c 8202)
  || N.eqb c 8232 || N.eqb c 8233 || N.eqb c 8239 || N.eqb c 8287
  || N.eqb c 12288 || N.eqb c 65279.

(** [\w]: [A-Za-z0-9_]. *)
Definition is_word_char (c : N) : bool :=
  (N.leb 65 c && N.leb c 90) || (N.leb 97 c && N.leb c 122)
  || (N.leb 48 c && N.leb c 57) || N.eqb c 95.

Fixpoint trim_start (s : jstr) : jstr :=
  match s with
  | c :: s' => if is_js_space c then trim_start s' else s
  | [] => []
  end.

Definition trim_end (s : jstr) : jstr := rev (trim_start (rev s)).

(** [String.prototype.trim] *)
Definition trim (s : jstr) : jstr := trim_end (trim_start s).

(* ================================================================= *)
(** ** JSON values and [JSON.parse]

    Numbers are kept as exact decimals [m * 10^e] with the mantissa
    stripped of trailing zeros; IEEE-754 rounding is not modelled. *)

Inductive json :=
| JNull
| JBool (b : bool)
| JNum (m : Z) (e : Z)
| JStr (s : jstr)
| JArr (xs : list json)
| JObj (fields : list (jstr * json)).

(** JSON whitespace (ECMA-404): tab, line feed, carriage return, space. *)
Definition is_json_ws (c : N) : bool :=
  N.eqb c 9 || N.eqb c 10 || N.eqb c 13 || N.eqb c 32.

Fixpoint skip_ws (s : jstr) : jstr :=
  match s with
  | c :: s' => if is_json_ws c then skip_ws s' else s
  | [] => []
  end.

Definition is_digit (c : N) : bool := N.leb 48 c && N.leb c 57.

Definition hex_val (c : N) : option N :=
  if is_digit c then Some (c - 48)%N
  else if N.leb 65 c && N.leb c 70 then Some (c - 55)%N
  else if N.leb 97 c && N.leb c 102 then Some (c - 87)%N
  else None.

(** Characters of a string literal after the opening quote, up to and
    including the closing quote. *)
Fixpoint lex_string (s : jstr) : option (jstr * jstr) :=
  match s with
  | [] => None
  | c :: s' =>
    if N.eqb c 34 then Some ([], s')
    else if N.eqb c 92 then
      match s' with
      | e :: s'' =>
        let simple x := match lex_string s'' with
                        | Some (v, r) => Some (x :: v, r)
                        | None => None
                        end in
        if N.eqb e 34 then simple 34%N
        else if N.eqb e 92 then simple 92%N
        else if N.eqb e 47 then simple 47%N
        else if N.eqb e 98 then simple 8%N
        else if N.eqb e 102 then simple 12%N
        else if N.eqb e 110 then simple 10%N
        else if N.eqb e 114 then simple 13%N
        else if N.eqb e 116 then simple 9%N
        else if N.eqb e 117 then
          match s'' with
          | h1 :: h2 :: h3 :: h4 :: r =>
            match hex_val h1, hex_val h2, hex_val h3, hex_val h4 with
            | Some a, Some b, Some c0, Some d =>
              match lex_string r with
              | Some (v, r') => Some ((((a * 16 + b) * 16 + c0) * 16 + d)%N :: v, r')
              | None => None
              end
            | _, _, _, _ => None
            end
          | _ => None
          end
        else None
      | [] => None
      end
    else if N.ltb c 32 then None
    else match lex_string s' with
         | Some (v, r) => Some (c :: v, r)
         | None => None
         end
  end.

Fixpoint span_digits (s : jstr) : jstr * jstr :=
  match s with
  | c :: s' => if is_digit c then let (d, r) := span_digits s' in (c :: d, r)
               else ([], s)
  | [] => ([], [])
  end.

Definition digits_value (d : jstr) : Z :=
  fold_left (fun acc c => acc * 10 + Z.of_N (c - 48))%Z d 0%Z.

Fixpoint normalize_fuel (n : nat) (m e : Z) : Z * Z :=
  match n with
  | O => (m, e)
  | S n' => if (m =? 0)%Z then (0, 0)%Z
            else if (Z.rem m 10 =? 0)%Z then normalize_fuel n' (Z.quot m 10) (e + 1)
            else (m, e)
  end.

Definition normalize (m e : Z) : Z * Z := normalize_fuel (Z.to_nat (Z.log2_up (Z.abs m) + 1)) m e.

(** The number grammar [-? (0 | [1-9][0-9]* ) (. [0-9]+)? ([eE] [+-]? [0-9]+)?]. *)
Definition lex_number (s : jstr) : option (json * jstr) :=
  let '(neg, s1) := match s with
                    | c :: r => if N.eqb c 45 then (true, r) else (false, s)
                    | [] => (false, s)
                    end in
  let '(ip, s2) := span_digits s1 in
  match ip with
  | [] => None
  | d0 :: rest =>
    if N.eqb d0 48 && negb (Nat.eqb (length rest) 0) then None else
    let '(fp, s3, okf) := match s2 with
                          | c :: r => if N.eqb c 46 then
                                        let (f, r') := span_digits r in (f, r', negb (Nat.eqb (length f) 0))
                                      else ([], s2, true)
                          | [] => ([], s2, true)
                          end in
    if negb okf then None else
    let '(ex, s4, oke) :=
      match s3 with
      | c :: r =>
        if N.eqb c 101 || N.eqb c 69 then
          let '(sg, r1) := match r with
                           | c' :: r' => if N.eqb c' 43 then (1%Z, r')
                                         else if N.eqb c' 45 then ((-1)%Z, r')
                                         else (1%Z, r)
                           | [] => (1%Z, r)
                           end in
          let (ed, r2) := span_digits r1 in
          ((sg * digits_value ed)%Z, r2, negb (Nat.eqb (length ed) 0))
        else (0%Z, s3, true)
      | [] => (0%Z, s3, true)
      end in
    if negb oke then None else
    let mant := digits_value (ip ++ fp) in
    let '(m, e) := normalize (if neg then (- mant)%Z else mant)
                             (ex - Z.of_nat (length fp))%Z in
    Some (JNum m e, s4)
  end.

(** Creating a data property on a fresh object: a repeated key keeps its
    first position and takes the last value. *)
Fixpoint set_field {A} (k : jstr) (v : A) (fs : list (jstr * A)) : list (jstr * A) :=
  match fs with
  | [] => [(k, v)]
  | (k', v') :: fs' => if jstr_eqb k k' then (k', v) :: fs'
                       else (k', v') :: set_field k v fs'
  end.

(** Recursive descent over the JSON grammar; [fuel] bounds the nesting and
    the number of elements, one unit per consumed token is enough. *)
Fixpoint parse_value (fuel : nat) (s : jstr) : option (json * jstr) :=
  match fuel with
  | O => None
  | S n =>
    match s with
    | [] => None
    | c :: r =>
      if N.eqb c 123 then
        match skip_ws r with
        | c' :: r' => if N.eqb c' 125 then Some (JObj [], r')
                      else parse_members n [] (c' :: r')
        | [] => None
        end
      else if N.eqb c 91 then
        match skip_ws r with
        | c' :: r' => if N.eqb c' 93 then Some (JArr [], r')
                      else parse_elements n [] (c' :: r')
        | [] => None
        end
      else if N.eqb c 34 then
        match lex_string r with Some (v, r') => Some (JStr v, r') | None => None end
      else if starts_with (u "true") s then Some (JBool true, skipn 4 s)
      else if starts_with (u "false") s then Some (JBool false, skipn 5 s)
      else if starts_with (u "null") s then Some (JNull, skipn 4 s)
      else if N.eqb c 45 || is_digit c then lex_number s
      else None
    end
  end
(** Array elements, [s] at the start of the next element. *)
with parse_elements (fuel : nat) (acc : list json) (s : jstr) : option (json * jstr) :=
  match fuel with
  | O => None
  | S n =>
    match parse_value n (skip_ws s) with
    | None => None
    | Some (v, r) =>
      match skip_ws r with
      | c :: r' => if N.eqb c 44 then parse_elements n (acc ++ [v]) r'
                   else if N.eqb c 93 then Some (JArr (acc ++ [v]), r')
                   else None
      | [] => None
      end
    end
  end
(** Object members, [s] at the start of the next member. *)
with parse_members (fuel : nat) (acc : list (jstr * json)) (s : jstr) : option (json * jstr) :=
  match fuel with
  | O => None
  | S n =>
    match skip_ws s with
    | c :: r =>
      if N.eqb c 34 then
        match lex_string r with
        | None => None
        | Some (k, r1) =>
          match skip_ws r1 with
          | c1 :: r2 =>
            if N.eqb c1 58 then
              match parse_value n (skip_ws r2) with
              | None => None
              | Some (v, r3) =>
                match skip_ws r3 with
                | c3 :: r4 => if N.eqb c3 44 then parse_members n (set_field k v acc) r4
                              else if N.eqb c3 125 then Some (JObj (set_field k v acc), r4)
                              else None
                | [] => None
                end
              end
            else None
          | [] => None
          end
        end
      else None
    | [] => None
    end
  end.

(** [JSON.parse(s)]: [None] is the [SyntaxError] it throws. *)
Definition json_parse (s : jstr) : option json :=
  match parse_value (S (length s)) (skip_ws s) with
  | Some (v, r) => match skip_ws r with [] => Some v | _ => None end
  | None => None
  end.

(* ================================================================= *)
(** ** [JsonOutputParser.extractJson] *)

(** [s.indexOf(p)] as the text before the first occurrence of [p]. *)
Fixpoint find_sub (p s : jstr) : option jstr :=
  if starts_with p s then Some []
  else match s with
       | [] => None
       | c :: s' => option_map (cons c) (find_sub p s')
       end.

Fixpoint skip_js_space (s : jstr) : jstr :=
  match s with
  | c :: s' => if is_js_space c then skip_js_space s' else s
  | [] => []
  end.

(** Capture group 1 of [text.match(/```(?:json)?\s*\n?([\s\S]*?)```/)].
    The match is tried at each position from the left.  At a position
    holding three backticks, the optional [json] is taken when present and
    [\s*] takes the whole whitespace run ([\n?] then matches empty, and
    shorter runs cannot help since whitespace never starts a fence); the
    lazy group then ends at the first following fence. *)
Fixpoint code_block (s : jstr) : option jstr :=
  match s with
  | [] => None
  | _ :: s' =>
    if starts_with (u "```") s then
      let after := skipn 3 s in
      let body := if starts_with (u "json") after then skipn 4 after else after in
      match find_sub (u "```") (skip_js_space body) with
      | Some cap => Some cap
      | None => code_block s'
      end
    else code_block s'
  end.

(** The longest prefix of [s] ending with code unit [c]. *)
Fixpoint upto_last (c : N) (s : jstr) : option jstr :=
  match s with
  | [] => None
  | x :: s' =>
    match upto_last c s' with
    | Some p => Some (x :: p)
    | None => if N.eqb x c then Some [x] else None
    end
  end.

Fixpoint drop_until (c : N) (s : jstr) : jstr :=
  match s with
  | x :: s' => if N.eqb x c then s else drop_until c s'
  | [] => []
  end.

(** [text.match(/\{[\s\S]*\}/)] (with [o], [cl] = 123, 125) and
    [text.match(/\[[\s\S]*\]/)] (with 91, 93): from the first opening
    code unit, greedily up to the last closing one after it.  When there is
    none after the first opening one there is none after a later one. *)
Definition greedy_region (o cl : N) (text : jstr) : option jstr :=
  match drop_until o text with
  | x :: rest => option_map (cons x) (upto_last cl rest)
  | [] => None
  end.

Definition is_some {A} (o : option A) : bool :=
  match o with Some _ => true | None => false end.

Definition extractJson (text : jstr) : jstr :=
  let trimmed := trim text in
  match trimmed with
  | [] => u "{}"
  | _ =>
    if is_some (json_parse trimmed) then trimmed
    else match code_block text with
         | Some cap => trim cap
         | None =>
           match greedy_region 123 125 text with
           | Some m => m
           | None =>
             match greedy_region 91 93 text with
             | Some m => m
             | None => if includes_cu 58 text then u "{" ++ text ++ u "}" else u "{}"
             end
           end
         end
  end.

(* ================================================================= *)
(** ** [JsonOutputParser.repairJson] *)

(** [s.replace(/,\s*([}\]])/g, "$1")].  A comma whose following
    whitespace run ends at [}] or [] ]] is dropped together with that run
    ([dropping] is set while the run is skipped); the bracket itself is kept,
    and the scan resumes after it, as the global regular expression does. *)
Definition closes_after (s : jstr) : bool :=
  match skip_js_space s with
  | c :: _ => N.eqb c 125 || N.eqb c 93
  | [] => false
  end.

Fixpoint strip_trailing_commas (dropping : bool) (s : jstr) : jstr :=
  match s with
  | [] => []
  | c :: s' =>
    if dropping && is_js_space c then strip_trailing_commas true s'
    else if N.eqb c 44 && closes_after s' then strip_trailing_commas true s'
    else c :: strip_trailing_commas false s'
  end.

Definition repairJson (json : jstr) : jstr :=
  let repaired := trim json in
  let repaired := strip_trailing_commas false repaired in
  let openCurly := count_cu 123 repaired in
  let closeCurly := count_cu 125 repaired in
  let repaired := if Nat.ltb closeCurly openCurly
                  then repaired ++ repeat_str (u "}") (openCurly - closeCurly)
                  else repaired in
  let openSquare := count_cu 91 repaired in
  let closeSquare := count_cu 93 repaired in
  if Nat.ltb closeSquare openSquare
  then repaired ++ repeat_str (u "]") (openSquare - closeSquare)
  else repaired.

(* ================================================================= *)
(** ** Plain JavaScript objects

    An object literal or [Record<string, T>] is an association list in
    insertion order, without repeated keys.  [Object.entries] lists the
    array-index keys first, in ascending numeric order, then the other keys
    in insertion order (OrdinaryOwnPropertyKeys, ECMA-262 10.1.11.1). *)

Definition jobj (A : Type) := list (jstr * A).

(** The canonical numeric string of an integer below [2^32 - 1]. *)
Definition array_index (k : jstr) : option N :=
  match k with
  | [] => None
  | d0 :: rest =>
    if forallb is_digit k && (negb (N.eqb d0 48) || Nat.eqb (length rest) 0)
       && Nat.leb (length k) 10
    then let n := Z.to_N (digits_value k) in
         if N.ltb n 4294967295 then Some n else None
    else None
  end.

Fixpoint insert_index {A} (n : N) (e : jstr * A) (l : list (N * (jstr * A)))
  : list (N * (jstr * A)) :=
  match l with
  | [] => [(n, e)]
  | (m, e') :: l' => if N.ltb n m then (n, e) :: l else (m, e') :: insert_index n e l'
  end.

Definition js_entries {A} (o : jobj A) : list (jstr * A) :=
  let idx := fold_left (fun acc e => match array_index (fst e) with
                                     | Some n => insert_index n e acc
                                     | None => acc
                                     end) o [] in
  map snd idx ++ filter (fun e => negb (is_some (array_index (fst e)))) o.

Fixpoint lookup {A} (k : jstr) (o : list (jstr * A)) : option A :=
  match o with
  | [] => None
  | (k', v) :: o' => if jstr_eqb k k' then Some v else lookup k o'
  end.

(** [{ ...a, ...b }] *)
Definition spread {A} (a b : jobj A) : jobj A :=
  fold_left (fun acc e => set_field (fst e) (snd e) acc) (js_entries a ++ js_entries b) [].

(** Properties every plain object inherits from [Object.prototype]. *)
Definition object_proto_names : list jstr :=
  map u ["constructor"; "__defineGetter__"; "__defineSetter__"; "hasOwnProperty";
         "__lookupGetter__"; "__lookupSetter__"; "isPrototypeOf";
         "propertyIsEnumerable"; "toString"; "valueOf"; "__proto__";
         "toLocaleString"]%string.

(** Properties arrays inherit from [Array.prototype] (ES2023). *)
Definition array_proto_names : list jstr :=
  map u ["constructor"; "at"; "concat"; "copyWithin"; "fill"; "find"; "findIndex";
         "findLast"; "findLastIndex"; "lastIndexOf"; "pop"; "push"; "reverse";
         "shift"; "unshift"; "slice"; "sort"; "splice"; "includes"; "indexOf";
         "join"; "keys"; "entries"; "values"; "forEach"; "filter"; "flat";
         "flatMap"; "map"; "every"; "some"; "reduce"; "reduceRight";
         "toLocaleString"; "toString"; "toReversed"; "toSorted"; "toSpliced";
         "with"]%string.

Definition mem_jstr (k : jstr) (l : list jstr) : bool := existsb (jstr_eqb k) l.

(** [key in obj] for a plain object. *)
Definition js_in {A} (k : jstr) (o : jobj A) : bool :=
  is_some (lookup k o) || mem_jstr k object_proto_names.

(* ================================================================= *)
(** ** [JsonOutputParser.validateSchema] *)

Inductive kind := KString | KNumber | KBoolean | KObject | KArray.

Definition kind_name (k : kind) : jstr :=
  match k with
  | KString => u "string" | KNumber => u "number" | KBoolean => u "boolean"
  | KObject => u "object" | KArray => u "array"
  end.

Definition JsonSchema := jobj kind.

(** [Array.isArray(x) ? "array" : typeof x] for a parsed JSON value. *)
Definition kind_of (v : json) : jstr :=
  match v with
  | JNull => u "object"
  | JBool _ => u "boolean"
  | JNum _ _ => u "number"
  | JStr _ => u "string"
  | JArr _ => u "array"
  | JObj _ => u "object"
  end.

(** [key in parsed] together with the kind of [parsed[key]]: [None] when
    [in] throws its [TypeError] (the right operand is not an object),
    [Some None] when the key is absent, [Some (Some k)] when it is present
    and [parsed[key]] has kind [k]. *)
Definition in_kind (k : jstr) (v : json) : option (option jstr) :=
  match v with
  | JObj fs =>
    match lookup k fs with
    | Some x => Some (Some (kind_of x))
    | None =>
      if jstr_eqb k (u "__proto__") then Some (Some (u "object"))
      else if mem_jstr k object_proto_names then Some (Some (u "function"))
      else Some None
    end
  | JArr xs =>
    match array_index k with
    | Some n =>
      if N.ltb n (N.of_nat (length xs))
      then Some (Some (kind_of (nth (N.to_nat n) xs JNull)))
      else Some None
    | None =>
      if jstr_eqb k (u "length") then Some (Some (u "number"))
      else if jstr_eqb k (u "__proto__") then Some (Some (u "array"))
      else if mem_jstr k array_proto_names || mem_jstr k object_proto_names
      then Some (Some (u "function"))
      else Some None
    end
  | _ => None
  end.

(** The errors thrown inside [parse]'s [try] block. *)
Inductive js_error :=
| SyntaxError                                 (* JSON.parse *)
| MissingField (key : jstr)                   (* validateSchema *)
| WrongKind (key : jstr) (expected : kind) (actual : jstr)
| InTypeError (key : jstr).                   (* key in <primitive> *)

(** [error.message]; the engine's wording for [SyntaxError] and for the
    [in] TypeError is modelled by a fixed text. *)
Definition error_message (e : js_error) : jstr :=
  match e with
  | SyntaxError => u "Unexpected token in JSON"
  | MissingField k => u "Missing required field: " ++ k
  | WrongKind k t a =>
    u "Field " ++ [34%N] ++ k ++ [34%N] ++ u " should be " ++ kind_name t
      ++ u ", got " ++ a
  | InTypeError k => u "Cannot use 'in' operator to search for '" ++ k ++ u "'"
  end.

Fixpoint validate_entries (es : list (jstr * kind)) (parsed : json) : option js_error :=
  match es with
  | [] => None
  | (key, type) :: es' =>
    match in_kind key parsed with
    | None => Some (InTypeError key)
    | Some None => Some (MissingField key)
    | Some (Some actual) =>
      if jstr_eqb actual (kind_name type) then validate_entries es' parsed
      else Some (WrongKind key type actual)
    end
  end.

(** [None]: returns normally; [Some e]: throws [e]. *)
Definition validateSchema (schema : JsonSchema) (parsed : json) : option js_error :=
  validate_entries (js_entries schema) parsed.

(* ================================================================= *)
(** ** [JsonOutputParser.parse] and [OutputParserException] *)

Record OutputParserException := {
  message : jstr;
  llmOutput : jstr;
  originalError : js_error
}.

Inductive outcome := Returns (v : json) | Throws (e : OutputParserException).

(** The body of the [try] block. *)
Definition parse_body (schema : option JsonSchema) (text : jstr) : js_error + json :=
  let extracted := extractJson text in
  let repaired := repairJson extracted in
  match json_parse repaired with
  | None => inl SyntaxError
  | Some parsed =>
    match schema with
    | Some sc => match validateSchema sc parsed with
                 | Some e => inl e
                 | None => inr parsed
                 end
    | None => inr parsed
    end
  end.

(** [new JsonOutputParser({ schema }).parse(text)] *)
Definition parse (schema : option JsonSchema) (text : jstr) : outcome :=
  match parse_body schema text with
  | inr parsed => Returns parsed
  | inl error =>
    Throws {| message := u "Failed to parse JSON: " ++ error_message error;
              llmOutput := text;
              originalError := error |}
  end.

(* ================================================================= *)
(** ** [Action], [ActionPipeline] and [runBatch]

    [CallbackManager]'s handlers are empty, so [run] is [_execute] with the
    error rethrown.  An action is either a concrete subclass, given by its
    [_execute] ([E + V]: throws or returns), or a pipeline. *)

Section Actions.

Variables V E : Type.

Inductive Action :=
| Unit (name : jstr) (execute : V -> E + V)
| ActionPipeline (steps : list Action).

(** [a.run(input)]; a pipeline folds the input through its steps and stops
    at the first step that throws. *)
Fixpoint run (a : Action) (input : V) {struct a} : E + V :=
  match a with
  | Unit _ execute => execute input
  | ActionPipeline steps =>
    (fix go (l : list Action) (output : V) : E + V :=
       match l with
       | [] => inr output
       | step :: l' =>
         match run step output with
         | inl e => inl e
         | inr o => go l' o
         end
       end) steps input
  end.

(** [a.chain(other)]: [Action.chain] builds [[this, other]];
    [ActionPipeline.chain] overrides it with [[...this.steps, other]]. *)
Definition chain (a other : Action) : Action :=
  match a with
  | ActionPipeline steps => ActionPipeline (steps ++ [other])
  | Unit _ _ => ActionPipeline [a; other]
  end.

(** The step list a unit contributes: a pipeline's [steps], or itself. *)
Definition steps_of (a : Action) : list Action :=
  match a with
  | ActionPipeline steps => steps
  | Unit _ _ => [a]
  end.

(** [Promise.all]: [order] lists the indices of the promises in the order
    they settle; a promise missing from it never settles. *)
Inductive batch_outcome :=
| Fulfilled (values : list V)
| Rejected (error : E)
| Pending.

Fixpoint set_nth {A} (l : list A) (i : nat) (x : A) : list A :=
  match l, i with
  | [], _ => []
  | _ :: l', O => x :: l'
  | y :: l', S i' => y :: set_nth l' i' x
  end.

Fixpoint settle (rs : list (E + V)) (order : list nat) (slots : list (option V))
  : E + list (option V) :=
  match order with
  | [] => inr slots
  | i :: order' =>
    match nth_error rs i with
    | Some (inl e) => inl e
    | Some (inr v) => settle rs order' (set_nth slots i (Some v))
    | None => settle rs order' slots
    end
  end.

Fixpoint all_some {A} (l : list (option A)) : option (list A) :=
  match l with
  | [] => Some []
  | Some x :: l' => option_map (cons x) (all_some l')
  | None :: _ => None
  end.

Definition promise_all (order : list nat) (rs : list (E + V)) : batch_outcome :=
  match settle rs order (repeat None (length rs)) with
  | inl e => Rejected e
  | inr slots => match all_some slots with
                 | Some vs => Fulfilled vs
                 | None => Pending
                 end
  end.

(** [a.runBatch(inputs)]: [Promise.all(inputs.map(input => this.run(input)))]. *)
Definition runBatch (a : Action) (order : list nat) (inputs : list V) : batch_outcome :=
  promise_all order (map (run a) inputs).

End Actions.

Arguments Unit {V E}.
Arguments ActionPipeline {V E}.
Arguments run {V E}.
Arguments chain {V E}.
Arguments steps_of {V E}.
Arguments Fulfilled {V E}.
Arguments Rejected {V E}.
Arguments Pending {V E}.
Arguments settle {V E}.
Arguments promise_all {V E}.
Arguments runBatch {V E}.

(** The pipeline of the repository's test: each step appends ["+i"]. *)
Definition append_step (i : string) : Action jstr jstr :=
  Unit (u "step") (fun x => inr (x ++ u "+" ++ u i)).

(* ================================================================= *)
(** ** [BasePrompt] and [TemplatePrompt] *)

(** The placeholder at the head of [s], just after a [{]: a non-empty run of
    word characters closed by [}]. *)
Fixpoint span_word (s : jstr) : jstr * jstr :=
  match s with
  | c :: s' => if is_word_char c then let (w, r) := span_word s' in (c :: w, r)
               else ([], s)
  | [] => ([], [])
  end.

Definition word_token (s : jstr) : option jstr :=
  match span_word s with
  | ((_ :: _) as w, c :: _) => if N.eqb c 125 then Some w else None
  | _ => None
  end.

(** [(template.match(/\{(\w+)\}/g) ?? []).map(v => v.slice(1, -1))].  A
    match starts at a [{]; after a match the scan goes on inside it, which
    finds what the regular expression finds after it, since the word
    characters and the [}] of a match hold no [{]. *)
Fixpoint extractVariables (template : jstr) : list jstr :=
  match template with
  | [] => []
  | c :: s' =>
    if N.eqb c 123 then
      match word_token s' with
      | Some w => w :: extractVariables s'
      | None => extractVariables s'
      end
    else extractVariables s'
  end.

(** [GetSubstitution] (ECMA-262 22.1.3.19.1) for a pattern without capture
    groups: [$$], [$&], [$`] and [$'] are expanded, any other [$] is kept. *)
Fixpoint get_substitution (matched str : jstr) (position : nat) (replacement : jstr) : jstr :=
  match replacement with
  | [] => []
  | c :: r =>
    if N.eqb c 36 then
      match r with
      | d :: r' =>
        if N.eqb d 36 then 36%N :: get_substitution matched str position r'
        else if N.eqb d 38 then matched ++ get_substitution matched str position r'
        else if N.eqb d 96 then firstn position str ++ get_substitution matched str position r'
        else if N.eqb d 39 then skipn (position + length matched) str
                                ++ get_substitution matched str position r'
        else 36%N :: get_substitution matched str position r
      | [] => [36%N]
      end
    else c :: get_substitution matched str position r
  end.

(** [str.replace(regex, replacement)] for a global regular expression that
    matches the non-empty literal [pat]: the scan at [position] either skips
    the rest of the last match ([skip]), or substitutes a match starting
    here, or copies one code unit. *)
Fixpoint replace_go (str pat replacement : jstr) (position skip : nat) (s : jstr) : jstr :=
  match s with
  | [] => []
  | c :: s' =>
    match skip with
    | S k => replace_go str pat replacement (S position) k s'
    | O =>
      if starts_with pat s
      then get_substitution pat str position replacement
           ++ replace_go str pat replacement (S position) (length pat - 1) s'
      else c :: replace_go str pat replacement (S position) 0 s'
    end
  end.

Definition replace_all (str pat replacement : jstr) : jstr :=
  replace_go str pat replacement 0 0 str.

(** Code units that are not literal in a regular expression source. *)
Definition regex_meta : list N :=
  map ch ["\"; "^"; "$"; "."; "|"; "?"; "*"; "+"; "("; ")"; "["; "]"; "{"; "}"]%char.

(** For a key without metacharacter, the source [\{key\}] of
    [new RegExp(`\\{${key}\\}`, "g")] is valid and matches exactly the
    literal text [{key}]. *)
Definition literal_key (key : jstr) : bool :=
  forallb (fun c => negb (existsb (N.eqb c) regex_meta)) key.

(** What [render] throws: the [Error] of [validate], or the [SyntaxError]
    of a [new RegExp] in [_render]. *)
Inductive render_error := ValidationError (message : jstr) | RegExpSyntaxError.

Section Templates.

(** Values bound to template variables, and [String(value)]. *)
Variable A : Type.
Variable to_String : A -> jstr.

Record TemplatePrompt := {
  template : jstr;
  inputVariables : list jstr;
  partialVariables : jobj A
}.

(** [new TemplatePrompt({ template, inputVariables, partialVariables })]:
    the variables are auto-detected when none are given. *)
Definition new_TemplatePrompt (template : jstr) (inputVariables : option (list jstr))
    (partialVariables : option (jobj A)) : TemplatePrompt :=
  {| template := template;
     inputVariables := match inputVariables with
                       | Some l => l
                       | None => extractVariables template
                       end;
     partialVariables := match partialVariables with Some p => p | None => [] end |}.

(** [mergeVariables] *)
Definition mergeVariables (p : TemplatePrompt) (values : jobj A) : jobj A :=
  spread (partialVariables p) values.

(** [validate]: [Some message] when it throws. *)
Definition validate (p : TemplatePrompt) (values : jobj A) : option jstr :=
  let merged := spread (partialVariables p) values in
  let missing := filter (fun key => negb (js_in key merged)) (inputVariables p) in
  match missing with
  | [] => None
  | _ => Some (u "Missing required input variables: " ++ join (u ", ") missing)
  end.

(** [result.replace(new RegExp(`\\{${key}\\}`, "g"), replacement)] for a
    key that holds a metacharacter: [\{key\}] is then a pattern of the
    JavaScript regular-expression engine, which is not embedded here and is
    a parameter ([key], then [result], then [replacement]); [None] is the
    [SyntaxError] thrown by the constructor on an invalid source such as
    [\{a(\}]. *)
Variable regexp_replace : jstr -> jstr -> jstr -> option jstr.

(** One step of the loop of [_render]:
    [result.replace(new RegExp(`\\{${key}\\}`, "g"), replacement)]. *)
Definition replace_key (result key replacement : jstr) : option jstr :=
  if literal_key key then Some (replace_all result (u "{" ++ key ++ u "}") replacement)
  else regexp_replace key result replacement.

(** [TemplatePrompt._render]: [None] when a [new RegExp] throws. *)
Definition _render (p : TemplatePrompt) (values : jobj A) : option jstr :=
  let merged := mergeVariables p values in
  fold_left (fun acc kv =>
               match acc with
               | Some result => replace_key result (fst kv) (to_String (snd kv))
               | None => None
               end)
            (js_entries merged) (Some (template p)).

(** [render]: [validate], then [_render]; [inl] is what it throws. *)
Definition render (p : TemplatePrompt) (values : jobj A) : render_error + jstr :=
  match validate p values with
  | Some msg => inl (ValidationError msg)
  | None => match _render p values with
            | Some result => inr result
            | None => inl RegExpSyntaxError
            end
  end.

End Templates.

Arguments template {A}.
Arguments inputVariables {A}.
Arguments partialVariables {A}.
Arguments new_TemplatePrompt {A}.
Arguments mergeVariables {A}.
Arguments validate {A}.
Arguments _render {A}.
Arguments render {A}.

(** The engine passed by the closed examples and counterexamples below: all
    their merged keys are literal, so [replace_key] never calls it. *)
Definition unused_regexp : jstr -> jstr -> jstr -> option jstr := fun _ _ _ => None.

(** ** Templates as sequences of pieces

    A template is read as a sequence of pieces: a code unit of plain text,
    or a [{key}] token.  It is well formed when its text holds no brace and
    its keys are non-empty runs of word characters, the [\w+] of the
    detection pattern. *)
Inductive piece := PText (c : N) | PVar (k : jstr).

Definition var_token (k : jstr) : jstr := 123%N :: k ++ [125%N].

Definition piece_text (p : piece) : jstr :=
  match p with PText c => [c] | PVar k => var_token k end.

Definition flatten (ps : list piece) : jstr := concat (map piece_text ps).

(** [no_cu c s]: the code unit [c] does not occur in [s]. *)
Definition no_cu (c : N) (s : jstr) : bool := forallb (fun d => negb (N.eqb d c)) s.

Definition wf_piece (p : piece) : bool :=
  match p with
  | PText c => negb (N.eqb c 123) && negb (N.eqb c 125)
  | PVar [] => false
  | PVar k => forallb is_word_char k
  end.

(** The keys of the tokens, every occurrence, in template order. *)
Fixpoint vars (ps : list piece) : list jstr :=
  match ps with
  | [] => []
  | PVar k :: ps' => k :: vars ps'
  | PText _ :: ps' => vars ps'
  end.

(** The template with the tokens whose key is in [done] replaced by [val]. *)
Definition subst_pieces (val : jstr -> jstr) (done : list jstr) (ps : list piece) : jstr :=
  concat (map (fun p => match p with
                        | PText c => [c]
                        | PVar k => if mem_jstr k done then val k else var_token k
                        end) ps).

(** The rendering the template description asks for: every token replaced
    by the value of its key. *)
Definition spec_render (val : jstr -> jstr) (ps : list piece) : jstr :=
  concat (map (fun p => match p with PText c => [c] | PVar k => val k end) ps).

(** Plain text as pieces. *)
Definition text_pieces (s : jstr) : list piece := map PText s.

(** The template ["Hi {name}, {name}!"]. *)
Definition hello_pieces : list piece :=
  text_pieces (u "Hi ") ++ [PVar (u "name")] ++ text_pieces (u ", ")
  ++ [PVar (u "name")] ++ text_pieces (u "!").

(** The template ["{name} loves {name}"]. *)
Definition loves_pieces : list piece :=
  [PVar (u "name")] ++ text_pieces (u " loves ") ++ [PVar (u "name")].

(** The value a merged variable object gives a key, stringified. *)
Definition value_of {A} (to_String : A -> jstr) (merged : jobj A) (k : jstr) : jstr :=
  match lookup k merged with Some v => to_String v | None => [] end.

(** ** Auxiliary definitions *)

(** Entries whose key is an array index. *)
Definition is_index_entry {A} (e : jstr * A) : bool := is_some (array_index (fst e)).

(** The first input, in settlement order, whose run rejects. *)
Fixpoint first_rejection {V E} (rs : list (E + V)) (order : list nat) : option (nat * E) :=
  match order with
  | [] => None
  | i :: order' =>
    match nth_error rs i with
    | Some (inl e) => Some (i, e)
    | _ => first_rejection rs order'
    end
  end.

(** Sample actions. *)
Definition unit_a : Action nat nat := Unit (u "a") inr.
Definition unit_b : Action nat nat := Unit (u "b") inr.
Definition unit_c : Action nat nat := Unit (u "c") inr.

Definition cap10 : Action nat nat :=
  Unit (u "cap10") (fun x => if Nat.ltb x 10 then inr x else inl x).

(** [s] has a comma that the trailing-comma repair removes. *)
Fixpoint has_trailing_comma (s : jstr) : bool :=
  match s with
  | [] => false
  | c :: s' => (N.eqb c 44 && closes_after s') || has_trailing_comma s'
  end.

(* ================================================================= *)
(** ** [Action.streamOutput] and [ActionPipeline._streamOutput] *)

Section Streaming.

Variables V E : Type.

(** How the generator ends abnormally: an action's error rethrown, or the
    [TypeError] of calling [streamOutput] on [this.steps[-1]], which is
    [undefined] for a pipeline without steps. *)
Inductive stream_error := StreamThrow (e : E) | StreamTypeError.

(** [a.streamOutput(input)]: the chunks it yields and how it ends
    ([None]: normally).  In the code only [ActionPipeline] overrides
    [_streamOutput]; any other action takes the default path, which awaits
    [this.run(input)] and yields the result.  A pipeline runs all steps
    but the last, then delegates to the last step's [streamOutput]. *)
Fixpoint streamOutput (a : Action V E) (input : V) {struct a}
  : list V * option stream_error :=
  match a with
  | Unit _ _ =>
    match run a input with
    | inr v => ([v], None)
    | inl e => ([], Some (StreamThrow e))
    end
  | ActionPipeline steps =>
    (fix go (l : list (Action V E)) (output : V) : list V * option stream_error :=
       match l with
       | [] => ([], Some StreamTypeError)
       | [last] => streamOutput last output
       | step :: l' =>
         match run step output with
         | inl e => ([], Some (StreamThrow e))
         | inr o => go l' o
         end
       end) steps input
  end.

(** Every pipeline reached through last steps has a step. *)
Fixpoint stream_ok (a : Action V E) : bool :=
  match a with
  | Unit _ _ => true
  | ActionPipeline steps =>
    (fix go (l : list (Action V E)) : bool :=
       match l with
       | [] => false
       | [last] => stream_ok last
       | _ :: l' => go l'
       end) steps
  end.

End Streaming.

Arguments StreamThrow {E}.
Arguments StreamTypeError {E}.
Arguments streamOutput {V E}.
Arguments stream_ok {V E}.

(* ================================================================= *)
(** ** [BaseOutputParser.parseWithPrompt] and [getFormatInstructions] *)

(** The [OutputParserException] thrown by [parseWithPrompt], whose
    [originalError] is the exception [parse] threw. *)
Record PromptParserException := {
  prompt_message : jstr;
  prompt_llmOutput : jstr;
  prompt_originalError : OutputParserException
}.

Inductive prompt_outcome :=
| PromptReturns (v : json)
| PromptThrows (e : PromptParserException).

(** [parser.parseWithPrompt(text, prompt)] for a [JsonOutputParser]. *)
Definition parseWithPrompt (schema : option JsonSchema) (text prompt : jstr) : prompt_outcome :=
  match parse schema text with
  | Returns v => PromptReturns v
  | Throws error =>
    PromptThrows {| prompt_message := u "Failed to parse output from prompt: " ++ message error;
                    prompt_llmOutput := text;
                    prompt_originalError := error |}
  end.

(** [JsonOutputParser.getFormatInstructions] *)
Definition getFormatInstructions (schema : option JsonSchema) : jstr :=
  let instructions := u "Respond ONLY with valid JSON." in
  match schema with
  | Some sc =>
    let schemaDesc :=
      join (u ", ") (map (fun kt => q "'" ++ fst kt ++ q "': " ++ kind_name (snd kt))
                         (js_entries sc)) in
    instructions ++ u " Schema: { " ++ schemaDesc ++ u " }"
  | None => instructions
  end.

(* ================================================================= *)
(** ** [TemplatePrompt.fromTemplate] and the [EmailClassifier] prompt *)

(** [Partial<TemplatePromptOptions>]: the keys present in [options]. *)
Record TemplatePromptOptions (A : Type) := {
  opt_template : option jstr;
  opt_inputVariables : option (list jstr);
  opt_partialVariables : option (jobj A)
}.

Arguments opt_template {A}.
Arguments opt_inputVariables {A}.
Arguments opt_partialVariables {A}.

Definition no_options {A} : TemplatePromptOptions A :=
  {| opt_template := None; opt_inputVariables := None; opt_partialVariables := None |}.

(** [TemplatePrompt.fromTemplate(template, options)]: [{ template, ...options }]. *)
Definition fromTemplate {A} (template : jstr) (options : TemplatePromptOptions A)
  : TemplatePrompt A :=
  new_TemplatePrompt (match opt_template options with Some t => t | None => template end)
                     (opt_inputVariables options) (opt_partialVariables options).

(** [DEFAULT_CLASSIFICATION_TEMPLATE]: the lines of the template literal,
    joined by line feeds, then trimmed; [8211] is the en dash. *)
Definition DEFAULT_CLASSIFICATION_TEMPLATE : jstr :=
  trim (join [10%N]
    [[];
     u "Analyze the following email and return ONLY valid JSON.";
     [];
     u "Required fields:";
     u "- category: booking | inquiry | complaint | cancellation | other";
     u "- priority: urgent | high | medium | low";
     u "- sentiment: positive | neutral | negative";
     u "- advert: boolean";
     u "- extractedInfo: {";
     u "    guestName?,";
     u "    checkIn?,";
     u "    checkOut?,";
     u "    roomType?,";
     u "    numberOfGuests?";
     u "}";
     u "- suggestedAction: string";
     u "- confidence: number between 0.000" ++ [8211%N] ++ u "1.000";
     [];
     u "Email Subject: {subject}";
     u "Email Body: {body}";
     [];
     u "Respond ONLY with valid JSON.";
     []]).

(** [buildVariables(subject, body)]: [{ subject, body }]. *)
Definition buildVariables (subject body : jstr) : jobj jstr :=
  [(u "subject", subject); (u "body", body)].

(** The prompt [EmailClassifier.execute] sends with the default template:
    [this.prompt.run(this.buildVariables(subject, body))]. *)
Definition classification_prompt (re : jstr -> jstr -> jstr -> option jstr)
    (subject body : jstr) : render_error + jstr :=
  render id re (fromTemplate DEFAULT_CLASSIFICATION_TEMPLATE no_options) (buildVariables subject body).

(** The default template around its two tokens. *)
Definition classification_head : jstr :=
  firstn 425 DEFAULT_CLASSIFICATION_TEMPLATE.

Definition classification_middle : jstr :=
  firstn 13 (skipn 434 DEFAULT_CLASSIFICATION_TEMPLATE).

Definition classification_tail : jstr :=
  skipn 453 DEFAULT_CLASSIFICATION_TEMPLATE.

(** [mismatch p s]: [s] differs from [p] at a position both have. *)
Fixpoint mismatch (p s : jstr) : bool :=
  match p, s with
  | a :: p', b :: s' => negb (N.eqb a b) || mismatch p' s'
  | _, _ => false
  end.

(** No occurrence of [p] starts inside [s], whatever follows [s]. *)
Fixpoint nowhere_starts (p s : jstr) : bool :=
  match s with
  | [] => true
  | _ :: s' => mismatch p s && nowhere_starts p s'
  end.

(** Induction over actions, through the steps of pipelines. *)
(* ----------------------------------------------------------------- *)
(** ** [StringOutputParser] *)

Definition fence : jstr := [96%N; 96%N; 96%N].
Definition fence_close : jstr := [10%N; 96%N; 96%N; 96%N].

(** The lazy [([\s\S]*?)\n```]: the content up to the first [\n```],
    and what follows that closing fence. *)
Fixpoint find_close (s : jstr) : option (jstr * jstr) :=
  if starts_with fence_close s then Some ([], skipn 4 s)
  else match s with
       | [] => None
       | c :: s' => match find_close s' with
                    | Some (content, rest) => Some (c :: content, rest)
                    | None => None
                    end
       end.

(** One match of [/```[\w]*\n([\s\S]*?)\n```/] at the start of [s]:
    the captured group and the text after the match.  [[\w]*] is greedy,
    and as a line feed is no word character, backtracking into it never
    yields another match. *)
Definition match_fence (s : jstr) : option (jstr * jstr) :=
  if starts_with fence s then
    match snd (span_word (skipn 3 s)) with
    | 10%N :: t => find_close t
    | _ => None
    end
  else None.

(** [text.replace(/```[\w]*\n([\s\S]*?)\n```/g, "$1")]: each match,
    searched left to right from the end of the previous one, is replaced
    by its group; [skip] counts the code units of a match still to pass. *)
Fixpoint strip_go (skip : nat) (s : jstr) : jstr :=
  match s with
  | [] => []
  | c :: s' =>
    match skip with
    | S k => strip_go k s'
    | O =>
      match match_fence s with
      | Some (content, rest) => content ++ strip_go (length s' - length rest) s'
      | None => c :: strip_go 0 s'
      end
    end
  end.

(** [StringOutputParser.stripMarkdownCodeBlocks] *)
Definition stripMarkdownCodeBlocks (text : jstr) : jstr := trim (strip_go 0 text).

(** [StringOutputParser.parse]; [stripMarkdown] defaults to [true]. *)
Definition string_parse (stripMarkdown : bool) (text : jstr) : jstr :=
  let cleaned := trim text in
  if stripMarkdown then stripMarkdownCodeBlocks cleaned else cleaned.

Section ActionInduction.

Variables V E : Type.
Variable P : Action V E -> Prop.
Hypothesis HUnit : forall name execute, P (Unit name execute).
Hypothesis HPipeline : forall steps, Forall P steps -> P (ActionPipeline steps).

Fixpoint action_ind' (a : Action V E) : P a :=
  match a with
  | Unit name execute => HUnit name execute
  | ActionPipeline steps =>
    HPipeline steps
      ((fix go (l : list (Action V E)) : Forall P l :=
          match l with
          | [] => Forall_nil P
          | s :: l' => Forall_cons s (action_ind' s) (go l')
          end) steps)
  end.

End ActionInduction.

(* ================================================================= *)
(** * Proofs *)

(** ** Sample evaluations *)

Example json_parse_ex1 :
  json_parse (q " {'a': [1, 2.50, -3e1, 'x\u0041'], 'b': null, 'a': true} ")
  = Some (JObj [(u "a", JBool true); (u "b", JNull)]).
Proof. vm_compute. reflexivity. Qed.

Example parse_trailing_object :
  parse None (q "{'name': 'John', 'age': 30, }")
  = Returns (JObj [(u "name", JStr (u "John")); (u "age", JNum 3 1)]).
Proof. vm_compute. reflexivity. Qed.

Example parse_code_block :
  parse None (u "```json" ++ [10%N] ++ q "{'name': 'test'}" ++ [10%N] ++ u "```") = Returns (JObj [(u "name", JStr (u "test"))]).
Proof. vm_compute. reflexivity. Qed.

Example parse_mixed_text :
  parse None (q "Here is the result: {'status': 'ok'} and more text")
  = Returns (JObj [(u "status", JStr (u "ok"))]).
Proof. vm_compute. reflexivity. Qed.

Example parse_mixed_array :
  parse None (q "The items are: [1, 2, 3] end") = Returns (JArr [JNum 1 0; JNum 2 0; JNum 3 0]).
Proof. vm_compute. reflexivity. Qed.

Example parse_bare_pairs :
  parse None (q "'name': 'John', 'age': 30")
  = Returns (JObj [(u "name", JStr (u "John")); (u "age", JNum 3 1)]).
Proof. vm_compute. reflexivity. Qed.

Example parse_no_colon : parse None (u "not valid json at all") = Returns (JObj []).
Proof. vm_compute. reflexivity. Qed.

Example parse_schema_missing :
  match parse (Some [(u "name", KString); (u "age", KNumber)]) (q "{'name': 'John'}") with
  | Throws e => message e = u "Failed to parse JSON: Missing required field: age"
  | Returns _ => False
  end.
Proof. vm_compute. reflexivity. Qed.

Example parse_schema_kind :
  match parse (Some [(u "name", KString); (u "age", KNumber)]) (q "{'name': 'John', 'age': 'thirty'}") with
  | Throws e => message e = u "Failed to parse JSON: Field " ++ [34%N] ++ u "age" ++ [34%N]
                              ++ u " should be number, got string"
  | Returns _ => False
  end.
Proof. vm_compute. reflexivity. Qed.

Example pipeline_sequencing :
  run (ActionPipeline [append_step "1"; append_step "2"; append_step "3"]) (u "start")
  = inr (u "start+1+2+3").
Proof. reflexivity. Qed.

Example render_duplicate :
  render id unused_regexp (new_TemplatePrompt (u "{name} loves {name}") None None)
    [(u "name", u "John")]
  = inr (u "John loves John").
Proof. vm_compute. reflexivity. Qed.

Example render_missing :
  render id unused_regexp (new_TemplatePrompt (u "Hello {name} {age}") None None)
    [(u "name", u "Alice")]
  = inl (ValidationError (u "Missing required input variables: age")).
Proof. vm_compute. reflexivity. Qed.


Lemma jstr_eqb_eq : forall a b, jstr_eqb a b = true <-> a = b.
Proof.
  induction a as [|x a IH]; intros [|y b]; simpl; try (split; congruence).
  rewrite andb_true_iff, N.eqb_eq, IH. split.
  - intros [-> ->]; reflexivity.
  - intros H; inversion H; auto.
Qed.


(** ** Objects: [Object.entries], lookups, spread *)

Section ObjectFacts.

Variable A : Type.

Lemma insert_index_perm : forall n (e : jstr * A) l,
  Permutation (map snd (insert_index n e l)) (e :: map snd l).
Proof.
  intros n e l; induction l as [|[m e'] l IH]; simpl; [reflexivity|].
  destruct (N.ltb n m); simpl; [reflexivity|].
  rewrite IH. apply perm_swap.
Qed.

Lemma entries_index_perm : forall (o : jobj A) acc,
  Permutation
    (map snd (fold_left (fun acc e => match array_index (fst e) with
                                      | Some n => insert_index n e acc
                                      | None => acc
                                      end) o acc))
    (map snd acc ++ filter is_index_entry o).
Proof.
  induction o as [|e o IH]; intros acc; simpl.
  - rewrite app_nil_r; reflexivity.
  - rewrite IH. unfold is_index_entry at 2.
    destruct (array_index (fst e)) as [n|]; simpl.
    + rewrite insert_index_perm. simpl. apply Permutation_middle.
    + reflexivity.
Qed.

Lemma filter_complement_perm : forall (f : jstr * A -> bool) l,
  Permutation (filter f l ++ filter (fun x => negb (f x)) l) l.
Proof.
  intros f l; induction l as [|x l IH]; simpl; [reflexivity|].
  destruct (f x); simpl.
  - apply perm_skip, IH.
  - rewrite <- Permutation_middle. apply perm_skip, IH.
Qed.

Lemma js_entries_perm : forall (o : jobj A), Permutation (js_entries o) o.
Proof.
  intros o; unfold js_entries.
  rewrite entries_index_perm. simpl.
  apply (filter_complement_perm is_index_entry).
Qed.

Lemma lookup_app : forall k (l1 l2 : jobj A),
  lookup k (l1 ++ l2) = match lookup k l1 with Some v => Some v | None => lookup k l2 end.
Proof.
  intros k l1 l2; induction l1 as [|[k' v'] l1 IH]; simpl; [reflexivity|].
  destruct (jstr_eqb k k'); auto.
Qed.

Lemma lookup_in : forall k v (l : jobj A), lookup k l = Some v -> In (k, v) l.
Proof.
  intros k v l; induction l as [|[k' v'] l IH]; simpl; [discriminate|].
  destruct (jstr_eqb k k') eqn:Hk.
  - apply jstr_eqb_eq in Hk; subst. intros H; inversion H; auto.
  - intros H; right; auto.
Qed.

Lemma lookup_none : forall k (l : jobj A), ~ In k (map fst l) -> lookup k l = None.
Proof.
  intros k l; induction l as [|[k' v'] l IH]; simpl; [reflexivity|].
  intros Hn. destruct (jstr_eqb k k') eqn:Hk.
  - apply jstr_eqb_eq in Hk; subst; tauto.
  - auto.
Qed.

Lemma lookup_perm : forall k (l l' : jobj A),
  Permutation l l' -> NoDup (map fst l) -> lookup k l = lookup k l'.
Proof.
  intros k l l' P; induction P as [|[k1 v1] l l' P IH|[k1 v1] [k2 v2] l|l l' l'' P1 IH1 P2 IH2];
    simpl; intros ND; auto.
  - inversion ND; subst. destruct (jstr_eqb k k1); auto.
  - inversion ND as [|? ? Hn ND']; subst. simpl in Hn.
    destruct (jstr_eqb k k2) eqn:H2, (jstr_eqb k k1) eqn:H1; auto.
    apply jstr_eqb_eq in H1, H2; subst. tauto.
  - rewrite IH1 by auto. apply IH2.
    apply (Permutation_NoDup (Permutation_map fst P1)); auto.
Qed.

Lemma lookup_js_entries : forall k (o : jobj A),
  NoDup (map fst o) -> lookup k (js_entries o) = lookup k o.
Proof.
  intros k o ND. apply lookup_perm; [apply js_entries_perm|].
  apply (Permutation_NoDup (Permutation_map fst (Permutation_sym (js_entries_perm o)))); auto.
Qed.

Lemma set_field_keys : forall k (v : A) l x,
  In x (map fst (set_field k v l)) -> x = k \/ In x (map fst l).
Proof.
  intros k v l x; induction l as [|[k' v'] l IH]; simpl.
  - intuition.
  - destruct (jstr_eqb k k'); simpl; intuition.
Qed.

Lemma set_field_nodup : forall k (v : A) l,
  NoDup (map fst l) -> NoDup (map fst (set_field k v l)).
Proof.
  intros k v l; induction l as [|[k' v'] l IH]; simpl; intros ND.
  - constructor; [simpl; tauto | constructor].
  - inversion ND as [|? ? Hn ND']; subst.
    destruct (jstr_eqb k k') eqn:Hk; simpl.
    + constructor; auto.
    + constructor; auto. intros Hin. apply set_field_keys in Hin as [->|Hin]; auto.
      rewrite (proj2 (jstr_eqb_eq k k) eq_refl) in Hk; discriminate.
Qed.

Lemma spread_nodup : forall (a b : jobj A), NoDup (map fst (spread a b)).
Proof.
  intros a b; unfold spread.
  assert (H : forall es (l : jobj A), NoDup (map fst l) ->
            NoDup (map fst (fold_left (fun acc e => set_field (fst e) (snd e) acc) es l))).
  { induction es as [|e es IH]; simpl; intros l ND; auto.
    apply IH, set_field_nodup, ND. }
  apply H; constructor.
Qed.

End ObjectFacts.

Arguments js_entries_perm {A}.
Arguments lookup_js_entries {A}.
Arguments spread_nodup {A}.

(** ** Pipelines and batches *)

Section ActionFacts.

Variables V E : Type.

Lemma settle_first_rejection : forall (rs : list (E + V)) order slots,
  match first_rejection rs order with
  | Some (_, e) => settle rs order slots = inl e
  | None => exists slots', settle rs order slots = inr slots'
  end.
Proof.
  intros rs order; induction order as [|i order IH]; intros slots; simpl; eauto.
  destruct (nth_error rs i) as [[e|v]|]; [reflexivity|apply IH|apply IH].
Qed.

Lemma first_rejection_before : forall (rs : list (E + V)) order i e,
  In i order -> nth_error rs i = Some (inl e) ->
  exists j e', first_rejection rs order = Some (j, e') /\ nth_error rs j = Some (inl e')
               /\ (j = i \/ exists o1 o2, order = o1 ++ i :: o2 /\ In j o1).
Proof.
  intros rs order i e; induction order as [|k order IH]; simpl; [tauto|].
  intros Hin Hi.
  destruct (nth_error rs k) as [[e'|v]|] eqn:Hk.
  - exists k, e'. repeat split; auto.
    destruct (Nat.eq_dec k i) as [->|Hne]; [now left|right].
    destruct Hin as [->|Hin]; [congruence|].
    apply in_split in Hin as (o1 & o2 & ->).
    exists (k :: o1), o2; split; [reflexivity|now left].
  - destruct Hin as [->|Hin]; [congruence|].
    destruct (IH Hin Hi) as (j & e'' & Hf & Hj & Hord).
    exists j, e''; repeat split; auto.
    destruct Hord as [->|(o1 & o2 & -> & Hj1)]; [now left|right].
    exists (k :: o1), o2; split; [reflexivity|now right].
  - destruct Hin as [->|Hin]; [congruence|].
    destruct (IH Hin Hi) as (j & e'' & Hf & Hj & Hord).
    exists j, e''; repeat split; auto.
    destruct Hord as [->|(o1 & o2 & -> & Hj1)]; [now left|right].
    exists (k :: o1), o2; split; [reflexivity|now right].
Qed.

Lemma set_nth_length : forall {X} (l : list X) i x, length (set_nth l i x) = length l.
Proof. intros X l; induction l as [|y l IH]; intros [|i] x; simpl; auto. Qed.

Lemma nth_error_set_nth : forall {X} (l : list X) i j x,
  nth_error (set_nth l i x) j =
  if Nat.eqb i j then (if Nat.ltb i (length l) then Some x else None) else nth_error l j.
Proof.
  intros X l; induction l as [|y l IH]; intros [|i] [|j] x; simpl; try reflexivity.
  all: try (destruct (Nat.eqb i j); reflexivity).
  rewrite IH. reflexivity.
Qed.

(** When every run succeeds, the slot of each settled index holds its value. *)
Lemma settle_all_ok : forall (vs : list V) order slots,
  length slots = length vs ->
  exists slots', settle (map (@inr E V) vs) order slots = inr slots'
    /\ length slots' = length vs
    /\ forall j, j < length vs ->
         nth_error slots' j = if existsb (Nat.eqb j) order
                              then Some (nth_error vs j) else nth_error slots j.
Proof.
  intros vs order; induction order as [|i order IH]; intros slots Hlen; simpl.
  - exists slots; repeat split; auto.
  - rewrite nth_error_map.
    destruct (nth_error vs i) as [v|] eqn:Hv; simpl.
    + destruct (IH (set_nth slots i (Some v))) as (sl & Hs & Hl & Hn);
        [rewrite set_nth_length; auto|].
      exists sl; repeat split; auto. intros j Hj. rewrite Hn by auto.
      rewrite nth_error_set_nth, Hlen.
      destruct (Nat.eqb_spec i j) as [->|Hne]; simpl.
      * rewrite Nat.eqb_refl. destruct (existsb (Nat.eqb j) order); [reflexivity|].
        apply Nat.ltb_lt in Hj. rewrite Hj, Hv. reflexivity.
      * destruct (Nat.eqb_spec j i); [congruence|]. reflexivity.
    + destruct (IH slots Hlen) as (sl & Hs & Hl & Hn).
      exists sl; repeat split; auto. intros j Hj. rewrite Hn by auto.
      destruct (Nat.eqb_spec j i) as [->|]; simpl; auto.
      apply nth_error_None in Hv. lia.
Qed.

Lemma all_some_map : forall {X} (l : list X), all_some (map Some l) = Some l.
Proof. intros X l; induction l as [|x l IH]; simpl; auto. rewrite IH; reflexivity. Qed.

End ActionFacts.


(** [C2]: [a.chain(b)] is a pipeline whose steps are [a]'s steps followed by
    [b] itself (as one step, even when [b] is a pipeline): chaining three
    units left-nested gives three steps, right-nested gives two steps, the
    second being the pipeline [b.chain(c)]. *)
Theorem chain_appends_other : forall V E (a b c : Action V E),
  steps_of (chain a b) = steps_of a ++ [b]
  /\ steps_of (chain (chain a b) c) = steps_of a ++ [b; c]
  /\ steps_of (chain a (chain b c)) = steps_of a ++ [chain b c].
Proof.
  intros V E a b c.
  assert (H : forall x y : Action V E, steps_of (chain x y) = steps_of x ++ [y])
    by (intros [n f|s] y; reflexivity).
  rewrite !H, <- app_assoc. auto.
Qed.


(** [C2] counterexample: [a.chain(b.chain(c))] has two steps, not the
    three of [a]'s steps followed by [b.chain(c)]'s steps. *)
Lemma chain_right_nested_cex :
  length (steps_of (chain unit_a (chain unit_b unit_c))) = 2
  /\ steps_of (chain unit_a (chain unit_b unit_c))
     <> steps_of unit_a ++ steps_of (chain unit_b unit_c).
Proof. split; [reflexivity|]. discriminate. Qed.

(** [C5]: the [ActionPipeline] constructor does not check its steps: an
    empty pipeline is built, and running it returns the input unchanged;
    [chain] always yields at least one step, two when the receiver is not a
    pipeline. *)
Theorem empty_pipeline_is_identity : forall V E (x : V) (a b : Action V E),
  steps_of (@ActionPipeline V E []) = []
  /\ run (@ActionPipeline V E []) x = inr x
  /\ 1 <= length (steps_of (chain a b))
  /\ (forall n f, length (steps_of (chain (Unit n f) b)) = 2).
Proof.
  intros V E x a b; repeat split; auto.
  destruct a; simpl; rewrite ?length_app; simpl; lia.
Qed.

(** [C5] counterexample: [new ActionPipeline([])] is a usable unit. *)
Lemma empty_pipeline_cex :
  steps_of (@ActionPipeline nat nat []) = [] /\ run (@ActionPipeline nat nat []) 7 = inr 7.
Proof. split; reflexivity. Qed.

(** [C9]: when every input's run settles, [runBatch] fulfils with the
    outputs in input order if all runs succeed; if some run rejects, it
    rejects with the error of the rejecting run that settles first (so with
    that input's error when it is the only one failing), and no list. *)
Theorem runBatch_first_rejection : forall V E (a : Action V E) order inputs,
  (forall i, In i order <-> i < length inputs) ->
  (forall outputs, Forall2 (fun x v => run a x = inr v) inputs outputs ->
     runBatch a order inputs = Fulfilled outputs)
  /\ (forall i x e, nth_error inputs i = Some x -> run a x = inl e ->
       exists j y e', runBatch a order inputs = Rejected e'
         /\ nth_error inputs j = Some y /\ run a y = inl e'
         /\ (j = i \/ exists o1 o2, order = o1 ++ i :: o2 /\ In j o1))
  /\ (forall i x e, nth_error inputs i = Some x -> run a x = inl e ->
       (forall j y e', j <> i -> nth_error inputs j = Some y -> run a y <> inl e') ->
       runBatch a order inputs = Rejected e).
Proof.
  intros V E a order inputs Hcov.
  assert (Hrej : forall i x e, nth_error inputs i = Some x -> run a x = inl e ->
       exists j y e', runBatch a order inputs = Rejected e'
         /\ nth_error inputs j = Some y /\ run a y = inl e'
         /\ (j = i \/ exists o1 o2, order = o1 ++ i :: o2 /\ In j o1)).
  { intros i x e Hx He.
    assert (Hin : In i order) by (apply Hcov, nth_error_Some; congruence).
    assert (Hr : nth_error (map (run a) inputs) i = Some (inl e))
      by (rewrite nth_error_map, Hx; simpl; congruence).
    destruct (first_rejection_before V E _ _ _ _ Hin Hr) as (j & e' & Hf & Hj & Hord).
    rewrite nth_error_map in Hj.
    destruct (nth_error inputs j) as [y|] eqn:Hy; simpl in Hj; [|discriminate].
    exists j, y, e'. repeat split; auto; [|congruence].
    unfold runBatch, promise_all.
    pose proof (settle_first_rejection V E (map (run a) inputs) order
                  (repeat None (length (map (run a) inputs)))) as Hs.
    rewrite Hf in Hs. rewrite Hs. reflexivity. }
  repeat split.
  - intros outputs HF.
    assert (Hmap : map (run a) inputs = map inr outputs).
    { clear - HF; induction HF as [|x v xs vs Hxv HF IH]; simpl; [reflexivity|]. rewrite Hxv, IH; reflexivity. }
    assert (Hl : length inputs = length outputs) by (eapply Forall2_length; eauto).
    unfold runBatch, promise_all. rewrite Hmap, length_map.
    destruct (settle_all_ok V E outputs order (repeat None (length outputs)))
      as (sl & Hs & Hsl & Hn); [apply repeat_length|].
    rewrite Hs.
    assert (Hsl' : sl = map Some outputs).
    { apply nth_error_ext. intros j.
      destruct (Nat.lt_ge_cases j (length outputs)) as [Hj|Hj].
      - rewrite Hn by auto. rewrite nth_error_map.
        assert (Hin : In j order) by (apply Hcov; lia).
        replace (existsb (Nat.eqb j) order) with true.
        + destruct (nth_error outputs j) eqn:Ho; [reflexivity|].
          apply nth_error_None in Ho; lia.
        + symmetry; apply existsb_exists. exists j; split; auto. apply Nat.eqb_refl.
      - rewrite (proj2 (nth_error_None sl j)) by lia.
        rewrite nth_error_map, (proj2 (nth_error_None outputs j)) by lia. reflexivity. }
    rewrite Hsl', all_some_map. reflexivity.
  - exact Hrej.
  - intros i x e Hx He Honly.
    destruct (Hrej i x e Hx He) as (j & y & e' & Hb & Hy & He' & _).
    destruct (Nat.eq_dec j i) as [->|Hne].
    + rewrite Hx in Hy; inversion Hy; subst. congruence.
    + exfalso. exact (Honly j y e' Hne Hy He').
Qed.


(** [C9] witness. *)
Lemma runBatch_first_rejection_witness :
  (forall i, In i [1; 0] <-> i < length [5; 20])
  /\ runBatch cap10 [1; 0] [5; 20] = Rejected 20.
Proof.
  assert (Hcov : forall i, In i [1; 0] <-> i < length [5; 20]).
  { intros i; simpl; split; [intros [<-|[<-|[]]]; lia|].
    intros Hi; destruct i as [|[|i]]; auto; lia. }
  split; [exact Hcov|].
  apply (proj2 (proj2 (runBatch_first_rejection nat nat cap10 [1; 0] [5; 20] Hcov)) 1 20 20);
    [reflexivity|reflexivity|].
  intros [|[|j]] y e' Hne Hy Hrun; simpl in Hy.
  - inversion Hy; subst. vm_compute in Hrun. discriminate Hrun.
  - apply Hne; reflexivity.
  - destruct j; discriminate Hy.
Defined.

(** [C9] counterexample: input [0] rejects with [10], the batch rejects
    with the error [20] of input [1], which settled first. *)
Lemma runBatch_other_error_cex :
  run cap10 10 = inl 10 /\ runBatch cap10 [1; 0] [10; 20] = Rejected 20.
Proof. split; reflexivity. Qed.

(** ** The JSON parser *)

Lemma trim_start_idem : forall s, trim_start (trim_start s) = trim_start s.
Proof.
  induction s as [|c s IH]; simpl; auto.
  destruct (is_js_space c) eqn:Hc; auto. simpl. rewrite Hc. reflexivity.
Qed.

Lemma trim_start_snoc : forall l c, is_js_space c = false ->
  exists pre, trim_start (l ++ [c]) = pre ++ [c].
Proof.
  intros l c Hc; induction l as [|x l IH]; simpl.
  - rewrite Hc. exists []; reflexivity.
  - destruct (is_js_space x); auto. exists (x :: l); reflexivity.
Qed.

(** A string that starts with a non-space still does after [trim_end]. *)
Lemma trim_start_trim_end : forall s, trim_start s = s -> trim_start (trim_end s) = trim_end s.
Proof.
  intros [|c s] H; [reflexivity|].
  simpl in H. destruct (is_js_space c) eqn:Hc.
  - exfalso. assert (Hl := f_equal (@length N) H). simpl in Hl.
    assert (Hle : forall t, length (trim_start t) <= length t).
    { induction t as [|x t IHt]; simpl; auto. destruct (is_js_space x); simpl; lia. }
    specialize (Hle s). lia.
  - unfold trim_end. simpl.
    destruct (trim_start_snoc (rev s) c Hc) as [pre ->].
    rewrite rev_app_distr. simpl. rewrite Hc. reflexivity.
Qed.

Lemma trim_idem : forall s, trim (trim s) = trim s.
Proof.
  intros s. unfold trim.
  rewrite trim_start_trim_end by apply trim_start_idem.
  unfold trim_end. rewrite rev_involutive, trim_start_idem. reflexivity.
Qed.


Lemma strip_no_trailing_comma : forall s,
  has_trailing_comma s = false -> strip_trailing_commas false s = s.
Proof.
  induction s as [|c s IH]; simpl; auto.
  intros H. apply orb_false_iff in H as [H1 H2]. rewrite H1, IH; auto.
Qed.

Lemma parse_returns : forall schema text v,
  parse schema text = Returns v <-> parse_body schema text = inr v.
Proof.
  intros schema text v; unfold parse.
  destruct (parse_body schema text); split; intros H; congruence.
Qed.

Lemma js_entries_single : forall {A} k (x : A), js_entries [(k, x)] = [(k, x)].
Proof. intros A k x; unfold js_entries; simpl. destruct (array_index k); reflexivity. Qed.

Lemma validate_entries_ok : forall es parsed,
  validate_entries es parsed = None
  <-> forall k ty, In (k, ty) es -> in_kind k parsed = Some (Some (kind_name ty)).
Proof.
  induction es as [|[k ty] es IH]; intros parsed; simpl; [split; auto; tauto|].
  destruct (in_kind k parsed) as [[actual|]|] eqn:Hk.
  - destruct (jstr_eqb actual (kind_name ty)) eqn:Ha.
    + apply jstr_eqb_eq in Ha; subst. rewrite IH. split.
      * intros H k' ty' [Heq|Hin]; [inversion Heq; subst; auto|auto].
      * intros H k' ty' Hin; auto.
    + split; [discriminate|]. intros H. specialize (H k ty (or_introl eq_refl)).
      rewrite Hk in H. inversion H; subst.
      rewrite (proj2 (jstr_eqb_eq _ _) eq_refl) in Ha; discriminate.
  - split; [discriminate|]. intros H. specialize (H k ty (or_introl eq_refl)). congruence.
  - split; [discriminate|]. intros H. specialize (H k ty (or_introl eq_refl)). congruence.
Qed.

Lemma validate_entries_names : forall es parsed e,
  validate_entries es parsed = Some e ->
  exists k ty, In (k, ty) es /\ in_kind k parsed <> Some (Some (kind_name ty))
    /\ exists pre post, error_message e = pre ++ k ++ post.
Proof.
  induction es as [|[k ty] es IH]; intros parsed e; simpl; [discriminate|].
  destruct (in_kind k parsed) as [[actual|]|] eqn:Hk.
  - destruct (jstr_eqb actual (kind_name ty)) eqn:Ha.
    + intros H. destruct (IH parsed e H) as (k' & ty' & Hin & Hne & Hm).
      exists k', ty'; auto.
    + intros H; inversion H; subst. exists k, ty; repeat split; auto.
      * rewrite Hk. intros Heq; inversion Heq; subst.
        rewrite (proj2 (jstr_eqb_eq _ _) eq_refl) in Ha; discriminate.
      * exists (u "Field " ++ [34%N]),
          ([34%N] ++ u " should be " ++ kind_name ty ++ u ", got " ++ actual).
        simpl. reflexivity.
  - intros H; inversion H; subst. exists k, ty; repeat split; auto.
    + rewrite Hk; discriminate.
    + exists (u "Missing required field: "), []. rewrite app_nil_r. reflexivity.
  - intros H; inversion H; subst. exists k, ty; repeat split; auto.
    + rewrite Hk; discriminate.
    + exists (u "Cannot use 'in' operator to search for '"), (u "'"). reflexivity.
Qed.

Lemma in_js_entries : forall {A} (o : jobj A) e, In e (js_entries o) <-> In e o.
Proof.
  intros A o e; split; apply Permutation_in;
    [apply js_entries_perm | apply Permutation_sym, js_entries_perm].
Qed.

(** [C7]: when [parse] throws, the exception carries the raw input text as
    [llmOutput] and the error thrown inside the [try] block (by
    [JSON.parse] or by [validateSchema]) as [originalError], with that
    error's message in its own; when it returns, it returns exactly the
    value the [try] block produced. *)
Theorem parse_failure_keeps_raw_text : forall schema text,
  match parse schema text with
  | Throws e =>
    llmOutput e = text
    /\ exists cause, parse_body schema text = inl cause
         /\ originalError e = cause
         /\ message e = u "Failed to parse JSON: " ++ error_message cause
  | Returns v => parse_body schema text = inr v
  end.
Proof.
  intros schema text; unfold parse.
  destruct (parse_body schema text) as [cause|v]; simpl; eauto.
Qed.

(** [C8]: once the repaired text parses to [parsed], [parse] with a schema
    returns [parsed] iff every schema key is [in] the value with kind
    [Array.isArray(v) ? "array" : typeof v] equal to the expected one;
    otherwise the exception's message names an offending schema key. *)
Theorem schema_validation_iff : forall schema text parsed,
  json_parse (repairJson (extractJson text)) = Some parsed ->
  (parse (Some schema) text = Returns parsed
   <-> forall k ty, In (k, ty) schema -> in_kind k parsed = Some (Some (kind_name ty)))
  /\ (forall e, parse (Some schema) text = Throws e ->
       exists k ty, In (k, ty) schema /\ in_kind k parsed <> Some (Some (kind_name ty))
         /\ exists pre post, message e = pre ++ k ++ post).
Proof.
  intros schema text parsed Hp. split.
  - rewrite parse_returns. unfold parse_body. rewrite Hp.
    unfold validateSchema.
    destruct (validate_entries (js_entries schema) parsed) eqn:Hv.
    + split; [discriminate|]. intros H.
      assert (Hn : validate_entries (js_entries schema) parsed = None).
      { apply validate_entries_ok. intros k ty Hin. apply H, in_js_entries, Hin. }
      congruence.
    + split; [|reflexivity]. intros _ k ty Hin.
      apply (proj1 (validate_entries_ok _ _) Hv), in_js_entries, Hin.
  - intros e. unfold parse, parse_body. rewrite Hp. unfold validateSchema.
    destruct (validate_entries (js_entries schema) parsed) as [err|] eqn:Hv; [|discriminate].
    intros H; inversion H; subst; cbn [message].
    destruct (validate_entries_names _ _ _ Hv) as (k & ty & Hin & Hne & pre & post & Hm).
    exists k, ty; repeat split; [apply in_js_entries; auto|auto|].
    exists (u "Failed to parse JSON: " ++ pre), post. rewrite Hm, <- app_assoc. reflexivity.
Qed.

(** [C8] witness. *)
Lemma schema_validation_iff_witness :
  json_parse (repairJson (extractJson (q "{'name': 'John', 'age': 30}")))
    = Some (JObj [(u "name", JStr (u "John")); (u "age", JNum 3 1)])
  /\ parse (Some [(u "name", KString); (u "age", KNumber)]) (q "{'name': 'John', 'age': 30}")
     = Returns (JObj [(u "name", JStr (u "John")); (u "age", JNum 3 1)]).
Proof.
  assert (Hp : json_parse (repairJson (extractJson (q "{'name': 'John', 'age': 30}")))
               = Some (JObj [(u "name", JStr (u "John")); (u "age", JNum 3 1)]))
    by (vm_compute; reflexivity).
  split; [exact Hp|].
  apply (proj1 (schema_validation_iff [(u "name", KString); (u "age", KNumber)] _ _ Hp)).
  intros k ty [H|[H|[]]]; inversion H; subst; vm_compute; reflexivity.
Defined.

(** [C10]: a field whose parsed value is [null] passes a schema entry that
    expects ["object"] ([typeof null] is ["object"]), so [parse] returns
    the value. *)
Theorem null_field_passes_object_kind : forall k text fs,
  parse None text = Returns (JObj fs) -> lookup k fs = Some JNull ->
  parse (Some [(k, KObject)]) text = Returns (JObj fs).
Proof.
  intros k text fs Hp Hk.
  apply parse_returns in Hp. apply parse_returns.
  unfold parse_body in *.
  destruct (json_parse (repairJson (extractJson text))) as [v|]; [|discriminate].
  inversion Hp; subst. unfold validateSchema. rewrite js_entries_single. simpl.
  rewrite Hk. reflexivity.
Qed.

(** [C10] witness. *)
Lemma null_field_passes_object_kind_witness :
  parse None (q "{'f': null}") = Returns (JObj [(u "f", JNull)])
  /\ parse (Some [(u "f", KObject)]) (q "{'f': null}") = Returns (JObj [(u "f", JNull)]).
Proof.
  assert (Hp : parse None (q "{'f': null}") = Returns (JObj [(u "f", JNull)]))
    by (vm_compute; reflexivity).
  split; [exact Hp|].
  exact (null_field_passes_object_kind (u "f") _ _ Hp eq_refl).
Defined.

(** [C1]: on a text whose trimmed form is valid JSON, [parse] (no schema)
    returns [JSON.parse(text.trim())] as long as the repair step leaves the
    trimmed text alone: no comma followed by whitespace and a closing
    bracket, and no more opening than closing braces and square brackets
    (counted over the whole text, string literals included). *)
Theorem valid_json_parses_directly : forall text v,
  json_parse (trim text) = Some v ->
  has_trailing_comma (trim text) = false ->
  count_cu 123 (trim text) <= count_cu 125 (trim text) ->
  count_cu 91 (trim text) <= count_cu 93 (trim text) ->
  parse None text = Returns v.
Proof.
  intros text v Hv Hc Hcurly Hsquare.
  apply parse_returns. unfold parse_body.
  assert (He : extractJson text = trim text).
  { unfold extractJson. destruct (trim text) as [|c t] eqn:Ht.
    - vm_compute in Hv. discriminate.
    - rewrite Hv. reflexivity. }
  assert (Hr : repairJson (trim text) = trim text).
  { unfold repairJson. rewrite trim_idem, strip_no_trailing_comma by auto.
    replace (Nat.ltb (count_cu 125 (trim text)) (count_cu 123 (trim text))) with false
      by (symmetry; apply Nat.ltb_ge; lia).
    replace (Nat.ltb (count_cu 93 (trim text)) (count_cu 91 (trim text))) with false
      by (symmetry; apply Nat.ltb_ge; lia).
    reflexivity. }
  rewrite He, Hr, Hv. reflexivity.
Qed.

(** [C1] witness. *)
Lemma valid_json_parses_directly_witness :
  parse None (q "  {'a': [1, {'b': true}]} ") =
  Returns (JObj [(u "a", JArr [JNum 1 0; JObj [(u "b", JBool true)]])]).
Proof.
  apply valid_json_parses_directly; vm_compute; first [reflexivity | lia].
Defined.

(** [C1] counterexample: [["{"]] and [[",}"]] are valid JSON, yet the
    repair step rewrites them: the first gains a [}] and [parse] throws,
    the second loses its comma and [parse] returns a different string. *)
Lemma valid_json_repaired_cex :
  json_parse (trim (q "['{']")) = Some (JArr [JStr (u "{")])
  /\ parse None (q "['{']") =
     Throws {| message := u "Failed to parse JSON: " ++ error_message SyntaxError;
               llmOutput := q "['{']"; originalError := SyntaxError |}
  /\ json_parse (trim (q "[',}']")) = Some (JArr [JStr (u ",}")])
  /\ parse None (q "[',}']") = Returns (JArr [JStr (u "}")]).
Proof. vm_compute. repeat split; reflexivity. Qed.

Lemma trim_start_blank : forall s, forallb is_js_space s = true -> trim_start s = [].
Proof.
  induction s as [|c s IH]; simpl; auto.
  intros H; apply andb_true_iff in H as [-> H]; auto.
Qed.

(** An empty or all-whitespace text parses to the empty object. *)
Lemma parse_blank : forall s, forallb is_js_space s = true -> parse None s = Returns (JObj []).
Proof.
  intros s H. apply parse_returns. unfold parse_body, extractJson, trim.
  rewrite trim_start_blank by auto. reflexivity.
Qed.

(** [C4]: the repair examples.  The trailing commas of ["{"a":1,}"] and
    ["[1,2,]"] are removed, an empty or blank text gives [{}]; but the
    unbalanced ["{"a":1"] has no [}] for the object pattern, so the
    key-value fallback wraps it into ["{{"a":1}"], the repair appends one
    [}], and [JSON.parse] rejects ["{{"a":1}}"]: [parse] throws. *)
Theorem json_repair_examples :
  parse None (q "{'a':1,}") = Returns (JObj [(u "a", JNum 1 0)])
  /\ parse None (u "[1,2,]") = Returns (JArr [JNum 1 0; JNum 2 0])
  /\ parse None [] = Returns (JObj [])
  /\ parse None (u " " ++ [9%N; 10%N] ++ u "  ") = Returns (JObj [])
  /\ extractJson (q "{'a':1") = q "{{'a':1}"
  /\ repairJson (q "{{'a':1}") = q "{{'a':1}}"
  /\ json_parse (q "{{'a':1}}") = None
  /\ parse None (q "{'a':1") =
     Throws {| message := u "Failed to parse JSON: " ++ error_message SyntaxError;
               llmOutput := q "{'a':1"; originalError := SyntaxError |}.
Proof. vm_compute. repeat split; reflexivity. Qed.

(* ----------------------------------------------------------------- *)
(** ** Template facts *)

Lemma no_cu_app : forall c x y, no_cu c (x ++ y) = no_cu c x && no_cu c y.
Proof. intros c x y; unfold no_cu; apply forallb_app. Qed.

Lemma word_chars_no_brace : forall k, forallb is_word_char k = true ->
  no_cu 123 k = true /\ no_cu 125 k = true.
Proof.
  induction k as [|c k IH]; simpl; auto.
  intros H; apply andb_true_iff in H as [Hc Hk].
  destruct (IH Hk) as [-> ->].
  destruct (N.eqb c 123) eqn:E1; [apply N.eqb_eq in E1; subst; discriminate|].
  destruct (N.eqb c 125) eqn:E2; [apply N.eqb_eq in E2; subst; discriminate|].
  auto.
Qed.

Lemma literal_key_no_brace : forall k, literal_key k = true ->
  no_cu 123 k = true /\ no_cu 125 k = true.
Proof.
  unfold literal_key, no_cu.
  induction k as [|c k IH]; simpl; auto.
  intros H; apply andb_true_iff in H as [Hc Hk].
  destruct (IH Hk) as [-> ->].
  destruct (N.eqb c 123) eqn:E1.
  { apply N.eqb_eq in E1; subst.
    revert Hc; vm_compute; intros Hc; discriminate. }
  destruct (N.eqb c 125) eqn:E2.
  { apply N.eqb_eq in E2; subst.
    revert Hc; vm_compute; intros Hc; discriminate. }
  auto.
Qed.

Lemma mem_jstr_In : forall k l, mem_jstr k l = true <-> In k l.
Proof.
  intros k l; unfold mem_jstr; rewrite existsb_exists. split.
  - intros [x [Hx Heq]]. apply jstr_eqb_eq in Heq; subst; auto.
  - intros H; exists k; split; auto; apply jstr_eqb_eq; reflexivity.
Qed.

(** Scanning [extractVariables] over code units that are no [{]. *)
Lemma extractVariables_skip : forall x y, no_cu 123 x = true ->
  extractVariables (x ++ y) = extractVariables y.
Proof.
  induction x as [|c x IH]; simpl; intros y H; auto.
  apply andb_true_iff in H as [Hc Hx].
  destruct (N.eqb c 123); [discriminate|]. auto.
Qed.

Lemma span_word_token : forall k y, forallb is_word_char k = true ->
  span_word (k ++ 125%N :: y) = (k, 125%N :: y).
Proof.
  induction k as [|c k IH]; simpl; intros y H; auto.
  apply andb_true_iff in H as [-> Hk]. rewrite IH; auto.
Qed.

(** Auto-detection finds the key of every token, every occurrence, in
    template order. *)
Lemma extractVariables_flatten : forall ps, forallb wf_piece ps = true ->
  extractVariables (flatten ps) = vars ps.
Proof.
  induction ps as [|p ps IH]; intros H; [reflexivity|].
  simpl in H; apply andb_true_iff in H as [Hp Hps].
  destruct p as [c|k].
  - change (extractVariables (c :: flatten ps) = vars ps).
    apply andb_true_iff in Hp as [Hc _].
    simpl. destruct (N.eqb c 123); [discriminate|]. auto.
  - change (extractVariables (123%N :: (k ++ [125%N]) ++ flatten ps) = k :: vars ps).
    rewrite <- app_assoc.
    assert (Hk : k <> [] /\ forallb is_word_char k = true)
      by (destruct k; [discriminate|split; [discriminate|exact Hp]]).
    destruct Hk as [Hne Hk].
    simpl. unfold word_token. rewrite span_word_token by exact Hk.
    destruct k as [|c0 k0]; [congruence|]. simpl (N.eqb 125 125).
    f_equal. rewrite (extractVariables_skip (c0 :: k0) (125%N :: flatten ps))
      by apply (word_chars_no_brace _ Hk).
    simpl. rewrite IH; auto.
Qed.

Lemma get_substitution_plain : forall m s p r, no_cu 36 r = true ->
  get_substitution m s p r = r.
Proof.
  intros m s p; induction r as [|c r IH]; simpl; intros H; auto.
  apply andb_true_iff in H as [Hc Hr].
  destruct (N.eqb c 36); [discriminate|]. rewrite IH; auto.
Qed.

Lemma starts_with_app : forall p y, starts_with p (p ++ y) = true.
Proof. induction p as [|c p IH]; simpl; intros y; auto. rewrite N.eqb_refl; apply IH. Qed.

(** Code units that are no [{] are copied by a scan for a pattern that
    starts with [{]. *)
Lemma replace_go_copy : forall str pat' rep x y pos, no_cu 123 x = true ->
  replace_go str (123%N :: pat') rep pos 0 (x ++ y)
  = x ++ replace_go str (123%N :: pat') rep (pos + length x) 0 y.
Proof.
  intros str pat' rep; induction x as [|c x IH]; intros y pos H.
  - simpl. rewrite Nat.add_0_r; reflexivity.
  - change (negb (N.eqb c 123) && no_cu 123 x = true) in H.
    apply andb_true_iff in H as [Hc Hx].
    destruct (N.eqb c 123) eqn:Ec; [discriminate|].
    assert (Hs : starts_with (123%N :: pat') (c :: x ++ y) = false).
    { cbn [starts_with]. rewrite N.eqb_sym, Ec. reflexivity. }
    cbn [replace_go app]. rewrite Hs. cbv beta iota.
    rewrite IH by auto. cbn [length]. rewrite Nat.add_succ_r. reflexivity.
Qed.

Lemma replace_go_skip : forall str pat rep l y pos,
  replace_go str pat rep pos (length l) (l ++ y) = replace_go str pat rep (pos + length l) 0 y.
Proof.
  intros str pat rep; induction l as [|c l IH]; simpl; intros y pos.
  - rewrite Nat.add_0_r; reflexivity.
  - rewrite IH, Nat.add_succ_r; reflexivity.
Qed.

Lemma replace_go_match : forall str c pat' rep y pos,
  replace_go str (c :: pat') rep pos 0 ((c :: pat') ++ y)
  = get_substitution (c :: pat') str pos rep
    ++ replace_go str (c :: pat') rep (pos + S (length pat')) 0 y.
Proof.
  intros. simpl. rewrite N.eqb_refl, starts_with_app. simpl.
  rewrite Nat.sub_0_r, replace_go_skip, Nat.add_succ_r. reflexivity.
Qed.

Lemma starts_with_token : forall key k y, no_cu 125 key = true -> no_cu 125 k = true ->
  starts_with (key ++ [125%N]) (k ++ 125%N :: y) = true -> key = k.
Proof.
  induction key as [|a key IH]; intros [|d k] y Hkey Hk H; [reflexivity| | |].
  - change (N.eqb 125 d && starts_with [] (k ++ 125%N :: y) = true) in H.
    change (negb (N.eqb d 125) && no_cu 125 k = true) in Hk.
    apply andb_true_iff in H as [H _]. apply N.eqb_eq in H; subst.
    rewrite N.eqb_refl in Hk; discriminate.
  - change (N.eqb a 125 && starts_with (key ++ [125%N]) y = true) in H.
    change (negb (N.eqb a 125) && no_cu 125 key = true) in Hkey.
    apply andb_true_iff in H as [H _]. apply N.eqb_eq in H; subst.
    rewrite N.eqb_refl in Hkey; discriminate.
  - change (N.eqb a d && starts_with (key ++ [125%N]) (k ++ 125%N :: y) = true) in H.
    change (negb (N.eqb a 125) && no_cu 125 key = true) in Hkey.
    change (negb (N.eqb d 125) && no_cu 125 k = true) in Hk.
    apply andb_true_iff in Hkey as [_ Hkey]. apply andb_true_iff in Hk as [_ Hk].
    apply andb_true_iff in H as [Had H]. apply N.eqb_eq in Had; subst.
    f_equal; eauto.
Qed.

Lemma subst_pieces_cons : forall val done p ps,
  subst_pieces val done (p :: ps)
  = match p with
    | PText c => [c]
    | PVar k => if mem_jstr k done then val k else var_token k
    end ++ subst_pieces val done ps.
Proof. reflexivity. Qed.

Lemma wf_var_word : forall k, wf_piece (PVar k) = true -> forallb is_word_char k = true.
Proof. intros [|c k] H; [discriminate|exact H]. Qed.

(** One [replace] of [_render]: the tokens of [key] are replaced, the
    rest is copied. *)
Lemma replace_pieces_step : forall val done key ps str pos,
  forallb wf_piece ps = true ->
  no_cu 123 key = true -> no_cu 125 key = true ->
  (forall k, no_cu 123 (val k) = true) ->
  no_cu 36 (val key) = true ->
  replace_go str (var_token key) (val key) pos 0 (subst_pieces val done ps)
  = subst_pieces val (key :: done) ps.
Proof.
  intros val done key ps; induction ps as [|p ps IH]; intros str pos Hwf Hk1 Hk2 Hval Hd;
    [reflexivity|].
  change (wf_piece p && forallb wf_piece ps = true) in Hwf.
  apply andb_true_iff in Hwf as [Hp Hps].
  rewrite !subst_pieces_cons. unfold var_token at 1.
  destruct p as [c|k].
  - apply andb_true_iff in Hp as [Hc _].
    rewrite replace_go_copy by (unfold no_cu; simpl; rewrite Hc; reflexivity).
    rewrite IH; auto.
  - destruct (word_chars_no_brace k (wf_var_word k Hp)) as [Hk123 Hk125].
    destruct (mem_jstr k done) eqn:Hm.
    + assert (Hm' : mem_jstr k (key :: done) = true)
        by (unfold mem_jstr in *; simpl; rewrite Hm, orb_true_r; reflexivity).
      rewrite Hm', replace_go_copy, IH; auto.
    + destruct (jstr_eqb k key) eqn:Hkk.
      * apply jstr_eqb_eq in Hkk; subst k.
        assert (Hm' : mem_jstr key (key :: done) = true)
          by (unfold mem_jstr; simpl; rewrite (proj2 (jstr_eqb_eq key key) eq_refl); reflexivity).
        rewrite Hm'. unfold var_token.
        rewrite replace_go_match, get_substitution_plain, IH; auto.
      * assert (Hm' : mem_jstr k (key :: done) = false)
          by (unfold mem_jstr in *; simpl; rewrite Hm, Hkk; reflexivity).
        rewrite Hm'. unfold var_token.
        assert (Hs : starts_with (123%N :: key ++ [125%N])
                                 ((123%N :: k ++ [125%N]) ++ subst_pieces val done ps) = false).
        { cbn [starts_with app]. rewrite N.eqb_refl, <- app_assoc. cbn [app].
          destruct (starts_with (key ++ [125%N]) (k ++ 125%N :: subst_pieces val done ps)) eqn:E;
            [|reflexivity].
          apply starts_with_token in E; auto.
          rewrite E, (proj2 (jstr_eqb_eq k k) eq_refl) in Hkk; discriminate. }
        cbn [app] in Hs |- *. cbn [replace_go]. rewrite Hs. cbv beta iota.
        rewrite replace_go_copy by (rewrite no_cu_app, Hk123; reflexivity).
        rewrite IH; auto.
Qed.

(** The [fold_left] of [_render], over any list of entries. *)
Lemma render_fold : forall A (to_String : A -> jstr) val es done ps,
  forallb wf_piece ps = true ->
  (forall k, no_cu 123 (val k) = true) ->
  (forall kv, In kv es -> to_String (snd kv) = val (fst kv)
                          /\ literal_key (fst kv) = true /\ no_cu 36 (val (fst kv)) = true) ->
  fold_left (fun result kv => replace_all result (u "{" ++ fst kv ++ u "}") (to_String (snd kv)))
            es (subst_pieces val done ps)
  = subst_pieces val (rev (map fst es) ++ done) ps.
Proof.
  intros A to_String val es; induction es as [|kv es IH]; intros done ps Hwf Hval Hes;
    [reflexivity|].
  cbn [fold_left].
  destruct (Hes kv (or_introl eq_refl)) as [Hts [Hlit Hd]].
  destruct kv as [k v]; cbn [fst snd] in *.
  destruct (literal_key_no_brace _ Hlit) as [H1 H2].
  change (u "{" ++ k ++ u "}") with (var_token k).
  rewrite Hts. unfold replace_all. rewrite replace_pieces_step by auto.
  rewrite IH by (auto; intros kv' Hin; apply Hes; right; exact Hin).
  cbn [map rev]. rewrite <- app_assoc. reflexivity.
Qed.

Lemma subst_pieces_none : forall val ps, subst_pieces val [] ps = flatten ps.
Proof.
  intros val; induction ps as [|[c|k] ps IH]; [reflexivity| |];
    rewrite subst_pieces_cons, IH; reflexivity.
Qed.

Lemma subst_pieces_all : forall val done ps,
  (forall k, In k (vars ps) -> In k done) -> subst_pieces val done ps = spec_render val ps.
Proof.
  intros val done; induction ps as [|[c|k] ps IH]; intros H; [reflexivity| |].
  - rewrite subst_pieces_cons, IH by exact H. reflexivity.
  - rewrite subst_pieces_cons, IH by (intros k' Hk; apply H; right; exact Hk).
    rewrite (proj2 (mem_jstr_In k done)) by (apply H; left; reflexivity). reflexivity.
Qed.

Lemma spec_render_no_open : forall val ps,
  forallb wf_piece ps = true -> (forall k, no_cu 123 (val k) = true) ->
  no_cu 123 (spec_render val ps) = true.
Proof.
  intros val; induction ps as [|p ps IH]; intros Hwf Hval; [reflexivity|].
  change (wf_piece p && forallb wf_piece ps = true) in Hwf.
  apply andb_true_iff in Hwf as [Hp Hps].
  change (spec_render val (p :: ps)) with
    (match p with PText c => [c] | PVar k => val k end ++ spec_render val ps).
  rewrite no_cu_app, IH by auto. rewrite andb_true_r.
  destruct p as [c|k]; [|apply Hval].
  apply andb_true_iff in Hp as [Hc _]. unfold no_cu; simpl; rewrite Hc; reflexivity.
Qed.

Lemma lookup_nodup_in : forall A k v (l : jobj A),
  NoDup (map fst l) -> In (k, v) l -> lookup k l = Some v.
Proof.
  intros A k v l; induction l as [|[k' v'] l IH]; simpl; intros ND Hin; [contradiction|].
  inversion ND as [|x xs Hn ND']; subst.
  destruct Hin as [Heq|Hin].
  - inversion Heq; subst. rewrite (proj2 (jstr_eqb_eq k k) eq_refl). reflexivity.
  - destruct (jstr_eqb k k') eqn:E; auto.
    apply jstr_eqb_eq in E; subst. exfalso; apply Hn.
    apply (in_map fst) in Hin; exact Hin.
Qed.

Lemma value_of_no_cu : forall A (to_String : A -> jstr) merged c k,
  (forall kv, In kv merged -> no_cu c (to_String (snd kv)) = true) ->
  no_cu c (value_of to_String merged k) = true.
Proof.
  intros A to_String merged c k H. unfold value_of.
  destruct (lookup k merged) as [v|] eqn:E; [|reflexivity].
  apply (H (k, v)). apply lookup_in; exact E.
Qed.

Lemma validate_all_bound : forall A (merged : jobj A) l,
  (forall k, In k l -> lookup k merged <> None) ->
  filter (fun key => negb (js_in key merged)) l = [].
Proof.
  intros A merged; induction l as [|k l IH]; intros H; [reflexivity|].
  simpl. unfold js_in at 1.
  destruct (lookup k merged) eqn:E.
  - simpl. apply IH; intros k' Hk; apply H; right; exact Hk.
  - exfalso; apply (H k); [left; reflexivity|exact E].
Qed.

(** One [fold_left] of [_render] whose keys are all literal: no
    [new RegExp] throws, and each step is a literal global replace. *)
Lemma render_fold_literal : forall A (to_String : A -> jstr) re es s,
  (forall kv, In kv es -> literal_key (fst kv) = true) ->
  fold_left (fun acc kv => match acc with
                           | Some result => replace_key re result (fst kv) (to_String (snd kv))
                           | None => None
                           end) es (Some s)
  = Some (fold_left (fun result kv =>
                       replace_all result (u "{" ++ fst kv ++ u "}") (to_String (snd kv))) es s).
Proof.
  intros A to_String re es; induction es as [|kv es IH]; intros s H; [reflexivity|].
  cbn [fold_left].
  replace (match Some s with
           | Some result => replace_key re result (fst kv) (to_String (snd kv))
           | None => None
           end)
    with (Some (replace_all s (u "{" ++ fst kv ++ u "}") (to_String (snd kv)))).
  2:{ unfold replace_key. rewrite (H kv (or_introl eq_refl)). reflexivity. }
  apply IH. intros kv' Hin. apply H. right. exact Hin.
Qed.

Lemma span_word_stop : forall w c r, forallb is_word_char w = true -> is_word_char c = false ->
  span_word (w ++ c :: r) = (w, c :: r).
Proof.
  induction w as [|d w IH]; intros c r Hw Hc; simpl.
  - rewrite Hc. reflexivity.
  - simpl in Hw. apply andb_true_iff in Hw as [Hd Hw].
    rewrite Hd, IH by assumption. reflexivity.
Qed.

Lemma span_word_app_rest : forall x s,
  match s with [] => True | c :: _ => is_word_char c = false end ->
  span_word (x ++ s) = (fst (span_word x), snd (span_word x) ++ s).
Proof.
  induction x as [|c x IH]; intros s Hs.
  - destruct s as [|c s]; [reflexivity|]. simpl. rewrite Hs. reflexivity.
  - cbn [app span_word]. destruct (is_word_char c); [|reflexivity].
    rewrite IH by exact Hs. destruct (span_word x) as [w r]. reflexivity.
Qed.

(** A token never runs across a code unit that is neither a word
    character nor [}]. *)
Lemma word_token_app : forall x s,
  match s with [] => True | c :: _ => is_word_char c = false /\ c <> 125%N end ->
  word_token (x ++ s) = word_token x.
Proof.
  intros x s Hs. unfold word_token.
  rewrite span_word_app_rest by (destruct s; [exact I|exact (proj1 Hs)]).
  destruct (span_word x) as [w r]. cbn [fst snd].
  destruct w as [|a w]; [destruct r; reflexivity|].
  destruct r as [|d r]; [|reflexivity].
  destruct s as [|c s]; [reflexivity|]. destruct Hs as [_ Hc].
  cbn [app]. apply N.eqb_neq in Hc. rewrite Hc. reflexivity.
Qed.

Lemma extract_app : forall pre s,
  match s with [] => True | c :: _ => is_word_char c = false /\ c <> 125%N end ->
  extractVariables (pre ++ s) = extractVariables pre ++ extractVariables s.
Proof.
  induction pre as [|c pre IH]; intros s Hs; [reflexivity|].
  cbn [app extractVariables]. rewrite word_token_app, IH by exact Hs.
  destruct (N.eqb c 123); [destruct (word_token pre)|]; reflexivity.
Qed.

Lemma extract_skip : forall x y, no_cu 123 x = true ->
  extractVariables (x ++ y) = extractVariables y.
Proof.
  induction x as [|c x IH]; intros y H; [reflexivity|].
  change (negb (N.eqb c 123) && no_cu 123 x = true) in H.
  apply andb_true_iff in H as [Hc H].
  cbn [app extractVariables]. destruct (N.eqb c 123); [discriminate|].
  apply IH. exact H.
Qed.

Lemma extract_token : forall k post, k <> [] -> forallb is_word_char k = true ->
  extractVariables (var_token k ++ post) = k :: extractVariables post.
Proof.
  intros k post Hk Hw.
  change (extractVariables (var_token k ++ post)) with
    (match word_token ((k ++ [125%N]) ++ post) with
     | Some w => w :: extractVariables ((k ++ [125%N]) ++ post)
     | None => extractVariables ((k ++ [125%N]) ++ post)
     end).
  rewrite <- app_assoc. cbn [app].
  assert (Ht : word_token (k ++ 125%N :: post) = Some k).
  { unfold word_token. rewrite span_word_stop by (assumption || reflexivity).
    destruct k as [|a k]; [congruence|]. reflexivity. }
  rewrite Ht. f_equal.
  replace (k ++ 125%N :: post) with ((k ++ [125%N]) ++ post) by (rewrite <- app_assoc; reflexivity).
  apply extract_skip.
  rewrite no_cu_app, (proj1 (word_chars_no_brace k Hw)). reflexivity.
Qed.

(** [C3]: on any template with auto-detected variables, the detected list
    is [extractVariables t]: nothing for a text without [{], and the key of
    every [{identifier}] token, every occurrence kept, in template order,
    whatever text surrounds the token.  [render] throws the error of
    [validate] exactly when some detected key is not [in] the merged
    variables (a key inherited from [Object.prototype] counts as present),
    with the message ["Missing required input variables: "] followed by the
    missing keys, every occurrence kept, in template order, joined by
    [", "].  (Past validation, [render] can still throw the [SyntaxError]
    of a [new RegExp], never this error.) *)
Theorem render_reports_missing : forall A (to_String : A -> jstr) re t partials values msg,
  inputVariables (new_TemplatePrompt t None (Some partials)) = extractVariables t
  /\ (no_cu 123 t = true -> extractVariables t = [])
  /\ (forall pre k post, k <> [] -> forallb is_word_char k = true ->
        extractVariables (pre ++ var_token k ++ post)
        = extractVariables pre ++ k :: extractVariables post)
  /\ (render to_String re (new_TemplatePrompt t None (Some partials)) values
        = inl (ValidationError msg)
      <-> filter (fun k => negb (js_in k (spread partials values))) (extractVariables t) <> []
          /\ msg = u "Missing required input variables: "
                   ++ join (u ", ") (filter (fun k => negb (js_in k (spread partials values)))
                                            (extractVariables t))).
Proof.
  intros A to_String re t partials values msg.
  split; [reflexivity|]. split.
  { intros H. rewrite <- (app_nil_r t). rewrite extract_skip by exact H. reflexivity. }
  split.
  { intros pre k post Hk Hw.
    rewrite extract_app by (unfold var_token; cbn [app]; split; [reflexivity|discriminate]).
    rewrite extract_token by assumption. reflexivity. }
  unfold render, validate, new_TemplatePrompt. cbn [inputVariables partialVariables].
  cbv zeta.
  destruct (filter _ (extractVariables t)) as [|k ks].
  - split; [|intros [H _]; contradiction].
    intros H. destruct (_render _ _ _ _) in H; discriminate.
  - split.
    + intros H. inversion H; subst. split; [discriminate|reflexivity].
    + intros [_ ->]. reflexivity.
Qed.

(** [C3] witness. *)
Lemma render_reports_missing_witness :
  render id unused_regexp (new_TemplatePrompt (u "{name} loves {name}") None (Some [])) []
  = inl (ValidationError (u "Missing required input variables: name, name")).
Proof.
  apply (proj2 (proj2 (proj2 (render_reports_missing jstr id unused_regexp
           (u "{name} loves {name}") [] [] (u "Missing required input variables: name, name"))))).
  split; vm_compute; [congruence|reflexivity].
Defined.

(** [C3] counterexample: the detected list keeps duplicates, so a key used
    twice is named twice; and a key inherited from [Object.prototype] is
    never reported missing. *)
Lemma render_missing_cex :
  extractVariables (u "{name} loves {name}") = [u "name"; u "name"]
  /\ render id unused_regexp (new_TemplatePrompt (u "{name} loves {name}") None None) []
     = inl (ValidationError (u "Missing required input variables: name, name"))
  /\ render id unused_regexp (new_TemplatePrompt (u "Hi {constructor}") None None) []
     = inr (u "Hi {constructor}").
Proof. vm_compute. repeat split; reflexivity. Qed.



(* ----------------------------------------------------------------- *)
(** ** Composition, streaming and batches *)

Lemma run_pipeline_nil : forall V E (x : V), run (@ActionPipeline V E []) x = inr x.
Proof. reflexivity. Qed.

Lemma run_pipeline_cons : forall V E (s : Action V E) l x,
  run (ActionPipeline (s :: l)) x
  = match run s x with inl e => inl e | inr o => run (ActionPipeline l) o end.
Proof. reflexivity. Qed.

Lemma run_pipeline_app : forall V E (l1 l2 : list (Action V E)) x,
  run (ActionPipeline (l1 ++ l2)) x
  = match run (ActionPipeline l1) x with
    | inl e => inl e
    | inr o => run (ActionPipeline l2) o
    end.
Proof.
  intros V E l1 l2; induction l1 as [|s l1 IH]; intros x; [reflexivity|].
  cbn [app]. rewrite !run_pipeline_cons. destruct (run s x); [reflexivity|apply IH].
Qed.

Lemma run_pipeline_single : forall V E (b : Action V E) x,
  run (ActionPipeline [b]) x = run b x.
Proof. intros. rewrite run_pipeline_cons. destruct (run b x); reflexivity. Qed.

(** X1: [a.chain(b)] runs [a], then [b] on its output, and throws the
    first error; whichever of [a], [b] are pipelines. *)
Theorem chain_runs_in_sequence : forall V E (a b : Action V E) x,
  run (chain a b) x = match run a x with inl e => inl e | inr o => run b o end.
Proof.
  intros V E [n f|steps] b x; unfold chain.
  - rewrite run_pipeline_cons.
    destruct (run (Unit n f) x); [reflexivity|apply run_pipeline_single].
  - rewrite run_pipeline_app.
    destruct (run (ActionPipeline steps) x); [reflexivity|apply run_pipeline_single].
Qed.

(** X2: a pipeline step that is itself a pipeline runs as if its steps
    were spliced in place: nesting never changes what [run] computes. *)
Theorem nested_pipeline_runs_flat : forall V E (s1 s2 s3 : list (Action V E)) x,
  run (ActionPipeline (s1 ++ ActionPipeline s2 :: s3)) x
  = run (ActionPipeline (s1 ++ s2 ++ s3)) x.
Proof.
  intros. rewrite !run_pipeline_app.
  destruct (run (ActionPipeline s1) x); [reflexivity|].
  rewrite run_pipeline_cons, run_pipeline_app. reflexivity.
Qed.

Lemma stream_pipeline_cons : forall V E (s : Action V E) l x, l <> [] ->
  streamOutput (ActionPipeline (s :: l)) x
  = match run s x with
    | inl e => ([], Some (StreamThrow e))
    | inr o => streamOutput (ActionPipeline l) o
    end.
Proof. intros V E s [|s' l] x H; [congruence|reflexivity]. Qed.

Lemma stream_ok_cons : forall V E (s : Action V E) l, l <> [] ->
  stream_ok (ActionPipeline (s :: l)) = stream_ok (ActionPipeline l).
Proof. intros V E s [|s' l] H; [congruence|reflexivity]. Qed.





Lemma settle_values : forall V E (rs : list (E + V)) order slots slots',
  settle rs order slots = inr slots' ->
  length slots = length rs ->
  (forall i v, nth_error slots i = Some (Some v) -> nth_error rs i = Some (inr v)) ->
  length slots' = length rs
  /\ (forall i v, nth_error slots' i = Some (Some v) -> nth_error rs i = Some (inr v)).
Proof.
  intros V E rs order; induction order as [|j order IH]; intros slots slots' H Hlen Hval.
  - inversion H; subst; auto.
  - simpl in H. destruct (nth_error rs j) as [[e|v]|] eqn:Hj; [discriminate| |].
    + apply (IH _ _ H); [rewrite set_nth_length; exact Hlen|].
      intros i w Hi. rewrite nth_error_set_nth in Hi.
      destruct (Nat.eqb j i) eqn:Eji.
      * apply Nat.eqb_eq in Eji; subst.
        destruct (Nat.ltb i (length slots)); inversion Hi; subst; exact Hj.
      * apply Hval; exact Hi.
    + apply (IH _ _ H Hlen Hval).
Qed.

Lemma settle_error : forall V E (rs : list (E + V)) order slots e,
  settle rs order slots = inl e -> exists i, nth_error rs i = Some (inl e).
Proof.
  intros V E rs order; induction order as [|j order IH]; intros slots e H; [discriminate|].
  simpl in H. destruct (nth_error rs j) as [[e'|v]|] eqn:Hj.
  - inversion H; subst; eauto.
  - eapply IH; exact H.
  - eapply IH; exact H.
Qed.

Lemma all_some_nth : forall X (l : list (option X)) vs,
  all_some l = Some vs ->
  length vs = length l /\ (forall i v, nth_error vs i = Some v -> nth_error l i = Some (Some v)).
Proof.
  intros X; induction l as [|[x|] l IH]; intros vs H; simpl in H.
  - inversion H; subst; split; [reflexivity|intros [|i] v Hv; discriminate].
  - destruct (all_some l) as [vs'|] eqn:E; [|discriminate].
    inversion H; subst. destruct (IH vs' eq_refl) as [Hl Hn].
    split; [simpl; congruence|]. intros [|i] v Hv; simpl in *; [congruence|auto].
  - discriminate.
Qed.

Lemma repeat_none_nth : forall X n i (v : X),
  nth_error (repeat None n) i = Some (Some v) -> False.
Proof. intros X n; induction n as [|n IH]; intros [|i] v H; simpl in H; try discriminate; eauto. Qed.

Lemma Forall2_from_nth : forall X Y (R : X -> Y -> Prop) l1 l2,
  length l1 = length l2 ->
  (forall i x y, nth_error l1 i = Some x -> nth_error l2 i = Some y -> R x y) ->
  Forall2 R l1 l2.
Proof.
  intros X Y R; induction l1 as [|x l1 IH]; intros [|y l2] Hlen H; try discriminate;
    constructor.
  - apply (H 0); reflexivity.
  - apply IH; [simpl in Hlen; congruence|]. intros i; apply (H (S i)).
Qed.

(** X5: [runBatch] reports only what the runs computed, whatever the
    settlement order: a fulfilled batch has one output per input, in input
    order, each the result of running that input; a rejected batch carries
    the error of some input's run. *)
Theorem runBatch_sound : forall V E (a : Action V E) order inputs,
  (forall vs, runBatch a order inputs = Fulfilled vs ->
              Forall2 (fun x v => run a x = inr v) inputs vs)
  /\ (forall e, runBatch a order inputs = Rejected e ->
                exists x, In x inputs /\ run a x = inl e).
Proof.
  intros V E a order inputs. unfold runBatch, promise_all. split.
  - intros vs H.
    destruct (settle (map (run a) inputs) order (repeat None (length (map (run a) inputs))))
      as [e|slots] eqn:Hs; [discriminate|].
    destruct (all_some slots) as [vs'|] eqn:Ha; [|discriminate].
    inversion H; subst vs'.
    destruct (settle_values V E _ _ _ _ Hs) as [Hlen Hval].
    { apply repeat_length. }
    { intros i v Hi. exfalso. exact (repeat_none_nth _ _ _ _ Hi). }
    destruct (all_some_nth _ _ _ Ha) as [Hl Hn].
    apply Forall2_from_nth.
    + rewrite Hl, Hlen, length_map. reflexivity.
    + intros i x v Hx Hv. apply Hn, Hval in Hv.
      rewrite nth_error_map, Hx in Hv. simpl in Hv. inversion Hv; reflexivity.
  - intros e H.
    destruct (settle (map (run a) inputs) order (repeat None (length (map (run a) inputs))))
      as [e'|slots] eqn:Hs.
    + inversion H; subst e'. destruct (settle_error V E _ _ _ _ Hs) as [i Hi].
      rewrite nth_error_map in Hi.
      destruct (nth_error inputs i) as [x|] eqn:Hx; [|discriminate].
      injection Hi as Hr. exists x; split; [eapply nth_error_In; exact Hx|exact Hr].
    + destruct (all_some slots); discriminate.
Qed.

(* ----------------------------------------------------------------- *)
(** ** Merging and validating prompt variables *)

Lemma lookup_set_field : forall A k k' (v : A) l,
  lookup k (set_field k' v l) = if jstr_eqb k k' then Some v else lookup k l.
Proof.
  intros A k k' v l; induction l as [|[k0 v0] l IH]; simpl.
  - destruct (jstr_eqb k k'); reflexivity.
  - destruct (jstr_eqb k' k0) eqn:E0; simpl.
    + apply jstr_eqb_eq in E0; subst k0.
      destruct (jstr_eqb k k'); reflexivity.
    + rewrite IH. destruct (jstr_eqb k k0) eqn:E1; [|reflexivity].
      apply jstr_eqb_eq in E1; subst k0.
      destruct (jstr_eqb k k') eqn:E2; [|reflexivity].
      apply jstr_eqb_eq in E2; subst k'.
      rewrite (proj2 (jstr_eqb_eq k k) eq_refl) in E0; discriminate.
Qed.

Lemma lookup_fold_set_field : forall A k (es : list (jstr * A)) acc,
  lookup k (fold_left (fun acc e => set_field (fst e) (snd e) acc) es acc)
  = match lookup k (rev es) with Some v => Some v | None => lookup k acc end.
Proof.
  intros A k es; induction es as [|[k' v'] es IH]; intros acc; [reflexivity|].
  cbn [fold_left rev]. rewrite IH, lookup_app, lookup_set_field. cbn [fst snd lookup].
  destruct (lookup k (rev es)); [reflexivity|].
  destruct (jstr_eqb k k'); reflexivity.
Qed.

Lemma nodup_js_entries : forall A (o : jobj A),
  NoDup (map fst o) -> NoDup (map fst (js_entries o)).
Proof.
  intros A o H. eapply Permutation_NoDup; [|exact H].
  apply Permutation_map, Permutation_sym, js_entries_perm.
Qed.

Lemma lookup_rev : forall A k (l : jobj A), NoDup (map fst l) -> lookup k (rev l) = lookup k l.
Proof. intros A k l H. symmetry. apply lookup_perm; [apply Permutation_rev|exact H]. Qed.

Lemma lookup_spread : forall A k (a b : jobj A),
  NoDup (map fst a) -> NoDup (map fst b) ->
  lookup k (spread a b) = match lookup k b with Some v => Some v | None => lookup k a end.
Proof.
  intros A k a b Ha Hb. unfold spread.
  rewrite lookup_fold_set_field, rev_app_distr, lookup_app.
  rewrite !lookup_rev by (apply nodup_js_entries; assumption).
  rewrite !lookup_js_entries by assumption.
  destruct (lookup k b); [reflexivity|]. destruct (lookup k a); reflexivity.
Qed.

(** X6: in the merged variables a value passed to [render] overrides a
    partial variable of the same name, and a partial variable is used
    when no value is passed for it. *)
Theorem mergeVariables_prefers_values : forall A (p : TemplatePrompt A) values k,
  NoDup (map fst (partialVariables p)) -> NoDup (map fst values) ->
  lookup k (mergeVariables p values)
  = match lookup k values with Some v => Some v | None => lookup k (partialVariables p) end.
Proof. intros A p values k Hp Hv. unfold mergeVariables. apply lookup_spread; assumption. Qed.

(** X6 witness. *)
Lemma mergeVariables_prefers_values_witness :
  lookup (u "tone") (mergeVariables (new_TemplatePrompt (u "{tone} {name}") None
                                       (Some [(u "tone", u "formal"); (u "name", u "Ann")]))
                                    [(u "tone", u "casual")])
  = Some (u "casual").
Proof.
  refine (eq_trans (mergeVariables_prefers_values jstr _ _ _ _ _) _).
  - apply NoDup_cons; [simpl; intros [H|[]]; discriminate H|apply NoDup_cons; [intros []|constructor]].
  - apply NoDup_cons; [intros []|constructor].
  - reflexivity.
Defined.

Lemma lookup_is_some_In : forall A k (l : jobj A), is_some (lookup k l) = true <-> In k (map fst l).
Proof.
  intros A k l. split.
  - destruct (lookup k l) as [v|] eqn:E; [|discriminate]. intros _.
    apply lookup_in in E. apply (in_map fst) in E. exact E.
  - intros H. destruct (lookup k l) eqn:E; [reflexivity|].
    exfalso. induction l as [|[k' v'] l IH]; simpl in *; [contradiction|].
    destruct (jstr_eqb k k') eqn:Ek; [discriminate|].
    destruct H as [H|H]; [subst; rewrite (proj2 (jstr_eqb_eq k k) eq_refl) in Ek; discriminate|].
    auto.
Qed.

Lemma In_spread : forall A k (a b : jobj A),
  In k (map fst (spread a b)) <-> In k (map fst a) \/ In k (map fst b).
Proof.
  intros A k a b. rewrite <- (lookup_is_some_In A k (spread a b)). unfold spread.
  rewrite lookup_fold_set_field. cbn [lookup].
  assert (Hp : forall l : jobj A, is_some (lookup k (rev l)) = true <-> In k (map fst l)).
  { intros l. rewrite lookup_is_some_In, map_rev, <- in_rev. reflexivity. }
  assert (He : forall l : jobj A, In k (map fst (js_entries l)) <-> In k (map fst l)).
  { intros l. split; apply Permutation_in; apply Permutation_map;
      [apply js_entries_perm|apply Permutation_sym, js_entries_perm]. }
  transitivity (is_some (lookup k (rev (js_entries a ++ js_entries b))) = true).
  { destruct (lookup k (rev (js_entries a ++ js_entries b))); reflexivity. }
  rewrite Hp, map_app, in_app_iff, !He. reflexivity.
Qed.

(** X7: [render] passes validation exactly when every required variable
    is among the keys of the passed values or of the partial variables,
    or is a name every object inherits from [Object.prototype]. *)
Theorem validate_iff_supplied : forall A (p : TemplatePrompt A) values,
  validate p values = None
  <-> forall k, In k (inputVariables p) ->
       In k (map fst values) \/ In k (map fst (partialVariables p)) \/ In k object_proto_names.
Proof.
  intros A p values. unfold validate.
  assert (Hin : forall k, js_in k (spread (partialVariables p) values) = true
                <-> In k (map fst values) \/ In k (map fst (partialVariables p))
                    \/ In k object_proto_names).
  { intros k. unfold js_in. rewrite orb_true_iff, lookup_is_some_In, In_spread, mem_jstr_In.
    tauto. }
  induction (inputVariables p) as [|k ks IH]; simpl.
  - split; [intros _ k []|reflexivity].
  - destruct (js_in k (spread (partialVariables p) values)) eqn:Hk; simpl.
    + rewrite IH. split.
      * intros H k' [<-|Hk']; [apply Hin; exact Hk|auto].
      * intros H k' Hk'; apply H; auto.
    + split; [destruct (filter _ ks); discriminate|].
      intros H. rewrite (proj2 (Hin k) (H k (or_introl eq_refl))) in Hk. discriminate.
Qed.

Lemma span_word_app : forall s w r, span_word s = (w, r) ->
  s = w ++ r /\ forallb is_word_char w = true.
Proof.
  induction s as [|c s IH]; simpl; intros w r H.
  - inversion H; subst; auto.
  - destruct (is_word_char c) eqn:Hc.
    + destruct (span_word s) as [w' r'] eqn:E. inversion H; subst.
      destruct (IH _ _ eq_refl) as [-> Hw]. simpl; rewrite Hc, Hw; auto.
    + inversion H; subst; auto.
Qed.

(** X8: every variable auto-detected in a template is a non-empty run of
    word characters that occurs in the template between braces. *)
Theorem extractVariables_sound : forall t k,
  In k (extractVariables t) ->
  k <> [] /\ forallb is_word_char k = true
  /\ exists pre post, t = pre ++ u "{" ++ k ++ u "}" ++ post.
Proof.
  induction t as [|c s IH]; simpl; intros k Hk; [contradiction|].
  assert (Hrest : In k (extractVariables s) ->
                  k <> [] /\ forallb is_word_char k = true
                  /\ exists pre post, c :: s = pre ++ u "{" ++ k ++ u "}" ++ post).
  { intros H. destruct (IH k H) as [Hne [Hw [pre [post ->]]]].
    repeat split; auto. exists (c :: pre), post. reflexivity. }
  destruct (N.eqb c 123) eqn:Hc; [|auto].
  apply N.eqb_eq in Hc; subst c.
  unfold word_token in Hk.
  destruct (span_word s) as [w r] eqn:Hs.
  destruct w as [|d w']; [auto|].
  destruct r as [|c' r']; [auto|].
  destruct (N.eqb c' 125) eqn:Hc'; [|auto].
  destruct Hk as [<-|Hk]; [|auto].
  apply N.eqb_eq in Hc'; subst c'.
  destruct (span_word_app _ _ _ Hs) as [Heq Hw].
  repeat split; [discriminate|exact Hw|].
  exists [], r'. rewrite Heq. reflexivity.
Qed.

(** X8 witness. *)
Lemma extractVariables_sound_witness :
  u "name" <> [] /\ forallb is_word_char (u "name") = true
  /\ exists pre post, u "Dear {name}," = pre ++ u "{" ++ u "name" ++ u "}" ++ post.
Proof.
  apply (extractVariables_sound (u "Dear {name},") (u "name")).
  vm_compute. left. reflexivity.
Defined.

(* ----------------------------------------------------------------- *)
(** ** Repair, schemas, [parseWithPrompt] and format instructions *)

Lemma count_cu_app : forall c x y, count_cu c (x ++ y) = count_cu c x + count_cu c y.
Proof. intros c x y. unfold count_cu. rewrite filter_app, length_app. reflexivity. Qed.

Lemma count_cu_repeat : forall c d n,
  count_cu c (repeat_str [d] n) = if N.eqb c d then n else 0.
Proof.
  intros c d n; induction n as [|n IH]; simpl.
  - destruct (N.eqb c d); reflexivity.
  - change (d :: repeat_str [d] n) with ([d] ++ repeat_str [d] n).
    rewrite count_cu_app, IH. unfold count_cu; simpl.
    destruct (N.eqb c d); reflexivity.
Qed.

(** X9: the text [repairJson] returns never has more [{] than [}], nor
    more [[] than []]. *)
Theorem repairJson_balanced : forall s,
  count_cu 123 (repairJson s) <= count_cu 125 (repairJson s)
  /\ count_cu 91 (repairJson s) <= count_cu 93 (repairJson s).
Proof.
  intros s. unfold repairJson. cbv zeta.
  set (r0 := strip_trailing_commas false (trim s)).
  change (u "}") with [125%N]. change (u "]") with [93%N].
  set (r1 := if Nat.ltb (count_cu 125 r0) (count_cu 123 r0)
             then r0 ++ repeat_str [125%N] (count_cu 123 r0 - count_cu 125 r0) else r0).
  assert (H1 : count_cu 123 r1 <= count_cu 125 r1).
  { unfold r1. destruct (Nat.ltb (count_cu 125 r0) (count_cu 123 r0)) eqn:E.
    - apply Nat.ltb_lt in E. rewrite !count_cu_app, !count_cu_repeat. simpl. lia.
    - apply Nat.ltb_ge in E. exact E. }
  destruct (Nat.ltb (count_cu 93 r1) (count_cu 91 r1)) eqn:E.
  - apply Nat.ltb_lt in E. rewrite !count_cu_app, !count_cu_repeat. simpl. lia.
  - apply Nat.ltb_ge in E. split; assumption.
Qed.

(** X10: a schema only turns results into failures: whatever [parse]
    returns with a schema it returns without one, and what fails without a
    schema fails with it in the same way; an empty schema changes nothing. *)
Theorem schema_only_rejects : forall schema text,
  (forall v, parse (Some schema) text = Returns v -> parse None text = Returns v)
  /\ (forall e, parse None text = Throws e -> parse (Some schema) text = Throws e)
  /\ parse (Some []) text = parse None text.
Proof.
  intros schema text. unfold parse, parse_body. cbv zeta.
  destruct (json_parse (repairJson (extractJson text))) as [parsed|].
  - repeat split.
    + destruct (validateSchema schema parsed); [discriminate|auto].
    + discriminate.
  - repeat split; [discriminate|auto].
Qed.


Lemma join_In : forall sep x xs, In x xs -> exists pre post, join sep xs = pre ++ x ++ post.
Proof.
  intros sep x; induction xs as [|y xs IH]; intros H; [contradiction|].
  destruct H as [->|H].
  - destruct xs as [|z xs].
    + exists [], []. rewrite app_nil_r. reflexivity.
    + exists [], (sep ++ join sep (z :: xs)). reflexivity.
  - destruct (IH H) as [pre [post Hj]].
    destruct xs as [|z xs]; [contradiction|].
    exists (y ++ sep ++ pre), post. change (join sep (y :: z :: xs)) with
      (y ++ sep ++ join sep (z :: xs)). rewrite Hj, <- !app_assoc. reflexivity.
Qed.

(** X12: the format instructions always start with
    ["Respond ONLY with valid JSON."], which is all they say without a
    schema; with a schema they list every schema entry as
    ["key": kind]. *)
Theorem format_instructions_list_schema :
  getFormatInstructions None = u "Respond ONLY with valid JSON."
  /\ forall schema,
       (exists rest, getFormatInstructions (Some schema) = u "Respond ONLY with valid JSON." ++ rest)
       /\ forall k ty, In (k, ty) schema ->
            exists pre post, getFormatInstructions (Some schema)
                             = pre ++ q "'" ++ k ++ q "': " ++ kind_name ty ++ post.
Proof.
  split; [reflexivity|]. intros schema. split.
  - eexists. reflexivity.
  - intros k ty Hin.
    apply (Permutation_in _ (Permutation_sym (js_entries_perm schema))) in Hin.
    apply (in_map (fun kt => q "'" ++ fst kt ++ q "': " ++ kind_name (snd kt))) in Hin.
    destruct (join_In (u ", ") _ _ Hin) as [pre [post Hj]].
    unfold getFormatInstructions. cbv zeta. rewrite Hj. cbn [fst snd].
    exists (u "Respond ONLY with valid JSON." ++ u " Schema: { " ++ pre), (post ++ u " }").
    rewrite <- !app_assoc. reflexivity.
Qed.

(* ----------------------------------------------------------------- *)
(** ** The [EmailClassifier] prompt *)

Lemma mismatch_starts_with : forall p s y, mismatch p s = true -> starts_with p (s ++ y) = false.
Proof.
  induction p as [|a p IH]; intros [|b s] y H; try discriminate.
  cbn [mismatch] in H. cbn [app starts_with].
  apply orb_true_iff in H as [H|H].
  - apply negb_true_iff in H. rewrite H. reflexivity.
  - rewrite IH by exact H. apply andb_false_r.
Qed.

Lemma replace_go_nowhere : forall str pat rep x y pos,
  nowhere_starts pat x = true ->
  replace_go str pat rep pos 0 (x ++ y) = x ++ replace_go str pat rep (pos + length x) 0 y.
Proof.
  intros str pat rep; induction x as [|c x IH]; intros y pos H.
  - simpl. rewrite Nat.add_0_r. reflexivity.
  - cbn [nowhere_starts] in H. apply andb_true_iff in H as [Hm Hx].
    pose proof (mismatch_starts_with pat (c :: x) y Hm) as Hs.
    cbn [app] in Hs. cbn [app replace_go]. rewrite Hs. cbv beta iota.
    rewrite IH by exact Hx. cbn [length]. rewrite Nat.add_succ_r. reflexivity.
Qed.

Lemma replace_go_token : forall str k rep y pos, no_cu 36 rep = true ->
  replace_go str (var_token k) rep pos 0 (var_token k ++ y)
  = rep ++ replace_go str (var_token k) rep (pos + length (var_token k)) 0 y.
Proof.
  intros. unfold var_token. rewrite replace_go_match, get_substitution_plain by assumption.
  reflexivity.
Qed.

Lemma replace_go_copy_token : forall str k rep x y pos, no_cu 123 x = true ->
  replace_go str (var_token k) rep pos 0 (x ++ y)
  = x ++ replace_go str (var_token k) rep (pos + length x) 0 y.
Proof. intros. apply (replace_go_copy str (k ++ [125%N])). assumption. Qed.

Lemma classification_template_split :
  DEFAULT_CLASSIFICATION_TEMPLATE
  = classification_head ++ var_token (u "subject") ++ classification_middle
    ++ var_token (u "body") ++ classification_tail.
Proof. vm_compute. reflexivity. Qed.

(** X13: the default classification template of [EmailClassifier]
    requires exactly [subject] and [body] (its [extractedInfo: {...}]
    braces are no token), and for a subject without [{] or [$] and a body
    without [$] the prompt is the template with the subject and the body
    put in place of [{subject}] and [{body}]. *)
Theorem classification_prompt_fills : forall re subject body,
  no_cu 123 subject = true -> no_cu 36 subject = true -> no_cu 36 body = true ->
  inputVariables (@fromTemplate jstr DEFAULT_CLASSIFICATION_TEMPLATE no_options)
    = [u "subject"; u "body"]
  /\ classification_prompt re subject body
     = inr (classification_head ++ subject ++ classification_middle ++ body
            ++ classification_tail).
Proof.
  intros re subject body Hs1 Hs2 Hb. split; [vm_compute; reflexivity|].
  unfold classification_prompt, render.
  replace (validate (fromTemplate DEFAULT_CLASSIFICATION_TEMPLATE no_options)
                    (buildVariables subject body)) with (@None jstr) by reflexivity.
  replace (_render id re (fromTemplate DEFAULT_CLASSIFICATION_TEMPLATE no_options)
                   (buildVariables subject body))
    with (Some (fold_left (fun result kv =>
                             replace_all result (u "{" ++ fst kv ++ u "}") (id (snd kv)))
                          [(u "subject", subject); (u "body", body)]
                          DEFAULT_CLASSIFICATION_TEMPLATE)).
  2:{ symmetry. unfold _render.
      replace (js_entries (mergeVariables (fromTemplate DEFAULT_CLASSIFICATION_TEMPLATE no_options)
                                          (buildVariables subject body)))
        with [(u "subject", subject); (u "body", body)] by reflexivity.
      apply render_fold_literal. intros kv [<-|[<-|[]]]; reflexivity. }
  f_equal.
  cbn [fold_left fst snd]. unfold id.
  change (u "{" ++ u "subject" ++ u "}") with (var_token (u "subject")).
  change (u "{" ++ u "body" ++ u "}") with (var_token (u "body")).
  unfold replace_all. rewrite classification_template_split.
  rewrite (replace_go_nowhere _ _ _ classification_head) by (vm_compute; reflexivity).
  rewrite replace_go_token by exact Hs2.
  rewrite <- (app_nil_r (classification_middle ++ var_token (u "body") ++ classification_tail)).
  rewrite (replace_go_nowhere _ _ _ (classification_middle ++ var_token (u "body") ++ classification_tail)) by (vm_compute; reflexivity).
  cbn [replace_go]. rewrite !app_nil_r.
  rewrite (replace_go_nowhere _ _ _ classification_head) by (vm_compute; reflexivity).
  rewrite replace_go_copy_token by exact Hs1.
  rewrite (replace_go_nowhere _ _ _ classification_middle) by (vm_compute; reflexivity).
  rewrite replace_go_token by exact Hb.
  rewrite <- (app_nil_r classification_tail).
  rewrite (replace_go_nowhere _ _ _ classification_tail) by (vm_compute; reflexivity).
  cbn [replace_go]. rewrite !app_nil_r. reflexivity.
Qed.

(** X13 witness. *)
Lemma classification_prompt_fills_witness :
  classification_prompt unused_regexp (u "Room for two") (u "Do you have a double room in May?")
  = inr (classification_head ++ u "Room for two" ++ classification_middle
         ++ u "Do you have a double room in May?" ++ classification_tail).
Proof. apply (classification_prompt_fills unused_regexp _ _); reflexivity. Defined.

(* ----------------------------------------------------------------- *)
(** ** [StringOutputParser] *)

Lemma trim_start_no_cu : forall c s, no_cu c s = true -> no_cu c (trim_start s) = true.
Proof.
  induction s as [|d s IH]; simpl; intros H; [reflexivity|].
  destruct (is_js_space d); [|exact H].
  apply andb_true_iff in H as [_ H]. auto.
Qed.

Lemma no_cu_rev : forall c s, no_cu c (rev s) = no_cu c s.
Proof.
  intros c s. unfold no_cu. induction s as [|d s IH]; [reflexivity|].
  cbn [rev]. rewrite forallb_app, IH. cbn [forallb].
  rewrite andb_true_r, andb_comm. reflexivity.
Qed.

Lemma trim_no_cu : forall c s, no_cu c s = true -> no_cu c (trim s) = true.
Proof.
  intros c s H. unfold trim, trim_end. rewrite no_cu_rev.
  apply trim_start_no_cu. rewrite no_cu_rev. apply trim_start_no_cu. exact H.
Qed.

Lemma strip_go_plain : forall s, no_cu 96 s = true -> strip_go 0 s = s.
Proof.
  induction s as [|c s IH]; intros H; [reflexivity|].
  change (negb (N.eqb c 96) && no_cu 96 s = true) in H.
  apply andb_true_iff in H as [Hc H].
  assert (Hm : match_fence (c :: s) = None).
  { unfold match_fence. cbn [fence starts_with].
    destruct (N.eqb 96 c) eqn:E; [|reflexivity].
    apply N.eqb_eq in E. subst c. discriminate. }
  cbn [strip_go]. rewrite Hm, IH by exact H. reflexivity.
Qed.

(** X14: [StringOutputParser.parse] on a text with no backtick only
    trims it, whether or not markdown is stripped. *)
Theorem string_parse_plain : forall stripMarkdown text,
  no_cu 96 text = true -> string_parse stripMarkdown text = trim text.
Proof.
  intros [|] text H; [|reflexivity].
  unfold string_parse, stripMarkdownCodeBlocks.
  rewrite strip_go_plain by (apply trim_no_cu; exact H).
  apply trim_idem.
Qed.

(** X14 witness. *)
Lemma string_parse_plain_witness :
  string_parse true (u "  Thank you for your booking. ") = trim (u "  Thank you for your booking. ").
Proof. apply string_parse_plain. reflexivity. Defined.


Lemma find_close_first : forall c, nowhere_starts fence_close c = true ->
  find_close (c ++ fence_close) = Some (c, []).
Proof.
  induction c as [|d c IH]; intros H; [reflexivity|].
  cbn [nowhere_starts] in H. apply andb_true_iff in H as [Hm H].
  pose proof (mismatch_starts_with fence_close (d :: c) fence_close Hm) as Hs.
  cbn [app] in Hs |- *. cbn [find_close]. rewrite Hs. rewrite IH by exact H. reflexivity.
Qed.

Lemma strip_go_past : forall s n, length s <= n -> strip_go n s = [].
Proof.
  induction s as [|c s IH]; intros n H; [reflexivity|].
  destruct n as [|n]; simpl in H; [lia|]. cbn [strip_go]. apply IH. lia.
Qed.

Lemma strip_go_match : forall c s' content rest,
  match_fence (c :: s') = Some (content, rest) ->
  strip_go 0 (c :: s') = content ++ strip_go (length s' - length rest) s'.
Proof.
  intros c s' content rest H.
  change (strip_go 0 (c :: s')) with
    (match match_fence (c :: s') with
     | Some (content, rest) => content ++ strip_go (length s' - length rest) s'
     | None => c :: strip_go 0 s'
     end).
  rewrite H. reflexivity.
Qed.

Lemma trim_ends : forall c m d, is_js_space c = false -> is_js_space d = false ->
  trim (c :: m ++ [d]) = c :: m ++ [d].
Proof.
  intros c m d Hc Hd. unfold trim, trim_end. cbn [trim_start]. rewrite Hc.
  replace (rev (c :: m ++ [d])) with (d :: rev (c :: m))
    by (cbn [rev]; rewrite rev_app_distr; reflexivity).
  cbn [trim_start]. rewrite Hd.
  change (rev (d :: rev (c :: m))) with (rev (rev (c :: m)) ++ [d]).
  rewrite rev_involutive. reflexivity.
Qed.

(** X15: a text that is one fenced block, [```lang], a line feed, the
    content and [
```], parses to the trimmed content, provided the
    language tag is word characters and no [
```] starts inside the
    content. *)
Theorem string_parse_fenced : forall lang content,
  forallb is_word_char lang = true ->
  nowhere_starts fence_close content = true ->
  string_parse true (fence ++ lang ++ [10%N] ++ content ++ fence_close) = trim content.
Proof.
  intros lang content Hl Hc.
  set (s := fence ++ lang ++ [10%N] ++ content ++ fence_close).
  assert (Ht : trim s = s).
  { replace s with (96%N :: (96%N :: 96%N :: lang ++ 10%N :: content ++ [10%N; 96%N; 96%N]) ++ [96%N])
      by (unfold s, fence, fence_close; cbn [app]; rewrite <- ?app_assoc;
          cbn [app]; rewrite <- ?app_assoc; reflexivity).
    apply trim_ends; reflexivity. }
  unfold string_parse, stripMarkdownCodeBlocks. cbv zeta. rewrite Ht. f_equal.
  assert (Hm : match_fence s = Some (content, [])).
  { unfold match_fence. subst s. cbn [fence app starts_with N.eqb Pos.eqb andb skipn].
    rewrite (span_word_stop lang 10%N (content ++ fence_close)) by (assumption || reflexivity).
    cbn [snd]. apply find_close_first. exact Hc. }
  subst s. cbn [fence app] in Hm |- *. rewrite (strip_go_match _ _ _ _ Hm).
  rewrite strip_go_past by (cbn [length]; lia). apply app_nil_r.
Qed.

(** X15 witness. *)
Lemma string_parse_fenced_witness :
  string_parse true (fence ++ u "text" ++ [10%N] ++ u " Dear guest, " ++ fence_close)
  = trim (u " Dear guest, ").
Proof. apply string_parse_fenced; vm_compute; reflexivity. Defined.

(* ----------------------------------------------------------------- *)
(** ** Rendering with literal keys *)

(** X16: a template whose text holds no brace, all of whose tokens are
    bound in the merged variables, renders to the template with every
    occurrence of every token [{k}] replaced by [String] of the value of
    [k], and the result holds no [{], provided every merged key is free of
    regular-expression metacharacters and no value's string holds a [{] or
    a [$]. *)
Theorem render_replaces_every_token : forall A (to_String : A -> jstr) re ps partials values,
  forallb wf_piece ps = true ->
  (forall k, In k (vars ps) -> lookup k (spread partials values) <> None) ->
  (forall kv, In kv (spread partials values) ->
     literal_key (fst kv) = true /\ no_cu 123 (to_String (snd kv)) = true
     /\ no_cu 36 (to_String (snd kv)) = true) ->
  render to_String re (new_TemplatePrompt (flatten ps) None (Some partials)) values
    = inr (spec_render (value_of to_String (spread partials values)) ps)
  /\ no_cu 123 (spec_render (value_of to_String (spread partials values)) ps) = true.
Proof.
  intros A to_String re ps partials values Hwf Hbound Hkv.
  set (merged := spread partials values) in *.
  set (val := value_of to_String merged).
  assert (Hval : forall c k, (forall kv, In kv merged -> no_cu c (to_String (snd kv)) = true) ->
                             no_cu c (val k) = true)
    by (intros; apply value_of_no_cu; auto).
  assert (H123 : forall k, no_cu 123 (val k) = true)
    by (intros k; apply Hval; intros kv Hin; apply (Hkv kv Hin)).
  split; [|apply spec_render_no_open; auto].
  unfold render, validate, new_TemplatePrompt. cbn [inputVariables partialVariables].
  rewrite extractVariables_flatten by exact Hwf. fold merged.
  rewrite validate_all_bound by exact Hbound.
  unfold _render, mergeVariables. cbn [template partialVariables]. fold merged.
  rewrite render_fold_literal.
  2:{ intros kv Hin. apply (Permutation_in _ (js_entries_perm merged)) in Hin.
      apply (Hkv _ Hin). }
  f_equal.
  rewrite <- (subst_pieces_none val ps).
  rewrite render_fold with (val := val); auto.
  - apply subst_pieces_all. intros k Hk. rewrite app_nil_r, <- in_rev.
    destruct (lookup k merged) as [v|] eqn:E; [|exfalso; apply (Hbound k Hk E)].
    apply lookup_in in E. apply (in_map fst) in E.
    apply (Permutation_in _ (Permutation_map fst (Permutation_sym (js_entries_perm merged)))).
    exact E.
  - intros [k v] Hin. cbn [fst snd].
    apply (Permutation_in _ (js_entries_perm merged)) in Hin.
    destruct (Hkv _ Hin) as [Hlit [_ H36]]. cbn [fst snd] in *.
    assert (Hv : val k = to_String v).
    { unfold val, value_of. rewrite (lookup_nodup_in _ k v merged); auto.
      apply spread_nodup. }
    rewrite Hv. auto.
Qed.

(** X16 witness. *)
Lemma render_replaces_every_token_witness :
  flatten hello_pieces = u "Hi {name}, {name}!"
  /\ render id unused_regexp (new_TemplatePrompt (flatten hello_pieces) None (Some []))
       [(u "name", u "Bob")]
     = inr (u "Hi Bob, Bob!").
Proof.
  split; [reflexivity|].
  destruct (render_replaces_every_token jstr id unused_regexp hello_pieces []
              [(u "name", u "Bob")]) as [H _].
  - reflexivity.
  - intros k Hk. vm_compute in Hk. destruct Hk as [<-|[<-|[]]]; vm_compute; congruence.
  - intros kv Hin. vm_compute in Hin. destruct Hin as [<-|[]].
    vm_compute. split; [reflexivity|split; reflexivity].
  - refine (eq_trans H _). vm_compute. reflexivity.
Defined.
